(** * DGNN-Demos: the conditional DDPM notebook cell

    A shallow embedding of the diffusion part of
    [AutoEncoder_Example/AutoEncoder_Example.ipynb]: the top-level cell that
    computes the noise schedule ([beta_t], [alpha_t], [alphabar_t], ...), the
    class [UNet] (its [forward]), and the class [DDPM] ([forward] and
    [sample]).

    Conventions of the embedding.
    - The code is embedded over the real numbers ([R]): a float32 value is
      read as the real number it stands for, and rounding, NaN and
      infinities are outside that reading.  What is stated of lengths,
      exceptions, calls, random draws and of values as the code's own
      sequence of operations carries over to the float32 tensors; what rests
      on identities of the reals ([1 - b < 1], [exp (ln a) = a], ...) holds
      of them up to rounding only, and is stated as a fact of exact
      arithmetic.
    - The schedule cell and the corruption are embedded a second time over
      IEEE 754 binary32 (module [F32]), where the rounded values can be
      computed; the places where they leave the real ones are exhibited
      there.
    - A one-dimensional tensor is a [list R].  A four-dimensional batch
      (batch, channel, height, width) is a list of samples, each sample the
      flat list of its channel*height*width elements.
    - Python exceptions are the [Err] results of the error monad.
    - torch's global random generator is an explicit state [RNG]: a tape of
      outcomes with a read cursor.  Every sequence of outcomes is a tape, so a
      statement for all [RNG] is a statement for all random draws.
    - The learned layers of the U-Net are parameters (partial functions on
      tensors); [F.one_hot], indexing, [range], [arange], [cumsum] are
      modelled.

    Beside the diffusion code the file embeds the cell that arranges the
    dataset directory (autoencoder and GAN notebooks), over a model of the
    directory tree. *)

From Stdlib Require Import String.
From Stdlib Require Import Reals ZArith List Bool Lia Lra.
From Stdlib Require Import SpecFloat.
Import ListNotations.

Local Open Scope Z_scope.

(** ** Python and torch primitives *)

Inductive error : Type :=
| InvalidConfiguration   (* the error the specification names; no path of the code raises it *)
| ArangeBounds           (* torch.arange: upper bound inconsistent with the step sign *)
| RandintBounds          (* torch.randint: low >= high *)
| IndexError             (* index out of range *)
| OneHotClass            (* F.one_hot: a class value is negative or >= num_classes *)
| ShapeMismatch          (* operands of an elementwise operation differ in shape *)
| LayerFailure (code : nat). (* a learned layer, torch.cat or repeat rejected its input *)

Inductive result (A : Type) : Type :=
| Ok (a : A)
| Err (e : error).
Arguments Ok {A} a.
Arguments Err {A} e.

Definition rbind {A B : Type} (r : result A) (f : A -> result B) : result B :=
  match r with
  | Ok a => f a
  | Err e => Err e
  end.

Declare Scope res_scope.
Delimit Scope res_scope with res.
Notation "x <- r ;; k" := (rbind r (fun x => k))
  (at level 61, r at next level, right associativity) : res_scope.

(** [range(start, stop, step)] of Python for a non-zero step. *)
Definition py_range (start stop step : Z) : list Z :=
  let len :=
    if 0 <? step then (stop - start + step - 1) / step
    else (start - stop - step - 1) / (- step) in
  map (fun k => start + Z.of_nat k * step) (seq 0 (Z.to_nat len)).

(** [torch.arange(lo, hi)] with step 1: the integers [lo .. hi-1]; torch
    rejects [hi < lo]. *)
Definition arange (lo hi : Z) : result (list Z) :=
  if hi <? lo then Err ArangeBounds
  else Ok (map (fun k => lo + Z.of_nat k) (seq 0 (Z.to_nat (hi - lo)))).

(** [torch.arange(n)] for a count [n]. *)
Definition arange_n (n : nat) : list Z := map Z.of_nat (seq 0 n).

(** [t[i]] on a one-dimensional tensor, with Python's wrap-around of negative
    indices. *)
Definition index (t : list R) (i : Z) : result R :=
  let len := Z.of_nat (length t) in
  if (0 <=? i) && (i <? len) then Ok (nth (Z.to_nat i) t 0%R)
  else if (- len <=? i) && (i <? 0) then Ok (nth (Z.to_nat (len + i)) t 0%R)
  else Err IndexError.

(** [t[idx]] with an index tensor: one lookup per entry of [idx]. *)
Fixpoint index_many (t : list R) (idx : list Z) : result (list R) :=
  match idx with
  | [] => Ok []
  | i :: rest =>
      (v <- index t i ;;
       vs <- index_many t rest ;;
       Ok (v :: vs))%res
  end.

Fixpoint cumsum_acc (acc : R) (l : list R) : list R :=
  match l with
  | [] => []
  | x :: r => let a := (acc + x)%R in a :: cumsum_acc a r
  end.

(** [torch.cumsum(l, dim=0)]: the running sums, the first one being [l[0]]. *)
Definition cumsum (l : list R) : list R :=
  match l with
  | [] => []
  | x :: r => x :: cumsum_acc x r
  end.

Fixpoint map2 {A B C : Type} (f : A -> B -> C) (l : list A) (m : list B) : list C :=
  match l, m with
  | a :: l', b :: m' => f a b :: map2 f l' m'
  | _, _ => []
  end.

Fixpoint map3 {A B C D : Type} (f : A -> B -> C -> D)
    (l : list A) (m : list B) (n : list C) : list D :=
  match l, m, n with
  | a :: l', b :: m', c :: n' => f a b c :: map3 f l' m' n'
  | _, _, _ => []
  end.

(** ** Batches *)

Definition tensor : Type := list (list R).

Definition shape (x : tensor) : list nat := map (@length R) x.

Definition shape_eqb (x y : tensor) : bool :=
  if list_eq_dec Nat.eq_dec (shape x) (shape y) then true else false.

(** scalar * tensor *)
Definition tscale (a : R) (x : tensor) : tensor := map (map (fun v => (a * v)%R)) x.

(** tensor * scalar *)
Definition tscale_r (x : tensor) (a : R) : tensor := map (map (fun v => (v * a)%R)) x.

(** tensor + scalar *)
Definition tadd_scalar (x : tensor) (a : R) : tensor := map (map (fun v => (v + a)%R)) x.

(** Elementwise operation of two batches of one shape.  On unequal shapes
    torch broadcasts where it can and raises where it cannot; neither is
    modelled, and [ShapeMismatch] stands for both.  Statements on values
    therefore carry an equal-shape hypothesis, or speak of runs that the
    model lets return, whose operands had one shape. *)
Definition tbinop (f : R -> R -> R) (x y : tensor) : result tensor :=
  if shape_eqb x y then Ok (map2 (map2 f) x y) else Err ShapeMismatch.

Definition tadd : tensor -> tensor -> result tensor := tbinop Rplus.
Definition tsub : tensor -> tensor -> result tensor := tbinop Rminus.

(** [coef * x] where [coef] has shape (B,1,1,1) and [x] shape (B,C,H,W):
    sample [b] of [x] is scaled by [coef[b]]. *)
Definition bscale (coef : list R) (x : tensor) : result tensor :=
  if Nat.eqb (length coef) (length x)
  then Ok (map2 (fun a row => map (fun v => (a * v)%R) row) coef x)
  else Err ShapeMismatch.

Definition numel (size : list nat) : nat := fold_right Nat.mul 1%nat size.

(** [F.one_hot(c, num_classes)], as floats: row [k] has a one at column
    [c[k]].  A class value outside [0 .. num_classes-1] is an error. *)
Definition one_hot_row (num_classes : nat) (cls : Z) : list R :=
  map (fun j => if Z.of_nat j =? cls then 1%R else 0%R) (seq 0 num_classes).

Definition one_hot (c : list Z) (num_classes : nat) : result tensor :=
  if forallb (fun v => (0 <=? v) && (v <? Z.of_nat num_classes)) c
  then Ok (map (one_hot_row num_classes) c)
  else Err OneHotClass.

(** ** The random generator *)

Record RNG : Type := {
  normal_tape : nat -> R;   (* outcomes of the standard-normal draws *)
  int_tape : nat -> Z;      (* outcomes of the integer draws *)
  cursor : nat              (* how many outcomes have been consumed *)
}.

Definition advance (g : RNG) (k : nat) : RNG :=
  {| normal_tape := normal_tape g; int_tape := int_tape g; cursor := (cursor g + k)%nat |}.

Fixpoint draw_rows (f : nat -> R) (pos : nat) (lens : list nat) : tensor :=
  match lens with
  | [] => []
  | l :: r => map (fun k => f (pos + k)%nat) (seq 0 l) :: draw_rows f (pos + l)%nat r
  end.

Definition randn_rows (lens : list nat) (g : RNG) : tensor * RNG :=
  (draw_rows (normal_tape g) (cursor g) lens, advance g (list_sum lens)).

(** [torch.randn(n_sample, *size)] *)
Definition randn (n_sample : nat) (size : list nat) (g : RNG) : tensor * RNG :=
  randn_rows (repeat (numel size) n_sample) g.

(** [torch.randn_like(x)] *)
Definition randn_like (x : tensor) (g : RNG) : tensor * RNG :=
  randn_rows (shape x) g.

(** [torch.randint(lo, hi, (n,))]: [n] integers in [lo .. hi-1]. *)
Definition randint (lo hi : Z) (n : nat) (g : RNG) : result (list Z * RNG) :=
  if hi <=? lo then Err RandintBounds
  else Ok (map (fun k => lo + (int_tape g (cursor g + k)%nat) mod (hi - lo)) (seq 0 n),
           advance g n).

(** ** The noise schedule

    The code cell that starts with [# Training parameters], from [T = 400]
    to [sigma_t = torch.sqrt(beta_t)], as a function of the globals it
    reads.  For [T = 0] the division by [T] is [0/0]: NaN in torch, 0 in
    [R]; no statement below is about the values of that schedule. *)

Inductive Device : Type := cpu | cuda.

(** The notebook globals the cell reads. *)
Record Globals : Type := {
  T : Z;
  beta1 : R;
  beta2 : R;
  device : Device
}.

(** The globals the cell defines.  All tensors derive from the one
    [torch.arange(..., device=device)], hence share its device. *)
Record Schedule : Type := {
  placed_on : Device;
  beta_t : list R;
  alpha_t : list R;
  log_alpha_t : list R;
  alphabar_t : list R;
  sqrtab : list R;
  sqrtmab : list R;
  oneover_sqrta : list R;
  mab_over_sqrtmab_inv : list R;
  sigma_t : list R
}.

Definition schedule_cell (G : Globals) : result Schedule :=
  (ar <- arange 0 (T G + 1) ;;
   let beta_t := map (fun k => ((beta2 G - beta1 G) * IZR k / IZR (T G) + beta1 G)%R) ar in
   let alpha_t := map (fun b => (1 - b)%R) beta_t in
   let log_alpha_t := map ln alpha_t in
   let alphabar_t := map exp (cumsum log_alpha_t) in
   let sqrtab := map sqrt alphabar_t in
   let sqrtmab := map (fun a => sqrt (1 - a)) alphabar_t in
   let oneover_sqrta := map (fun a => (1 / sqrt a)%R) alpha_t in
   let mab_over_sqrtmab_inv :=
     map2 (fun a s => (a / s)%R) (map (fun a => (1 - a)%R) alpha_t) sqrtmab in
   let sigma_t := map sqrt beta_t in
   Ok {| placed_on := device G;
         beta_t := beta_t;
         alpha_t := alpha_t;
         log_alpha_t := log_alpha_t;
         alphabar_t := alphabar_t;
         sqrtab := sqrtab;
         sqrtmab := sqrtmab;
         oneover_sqrta := oneover_sqrta;
         mab_over_sqrtmab_inv := mab_over_sqrtmab_inv;
         sigma_t := sigma_t |})%res.

(** The values the notebook assigns: [T = 400], [beta1 = 1e-4], [beta2 = 0.02]. *)
Definition notebook_globals (d : Device) : Globals :=
  {| T := 400; beta1 := 1e-4; beta2 := 0.02; device := d |}.

(** ** Programs: random state, exceptions and a log of observable events *)

Inductive Event : Type :=
| EvIter (i : Z)                      (* the loop of [sample] entered its body with index [i] *)
| EvNet (x : tensor) (c : list Z).    (* [self.net] was called with these positional arguments *)

Definition M (A : Type) : Type := RNG -> list Event * result (A * RNG).

Definition ret {A : Type} (a : A) : M A := fun g => ([], Ok (a, g)).

Definition bind {A B : Type} (m : M A) (f : A -> M B) : M B :=
  fun g =>
    match m g with
    | (l, Ok (a, g')) => let (l', r) := f a g' in (l ++ l', r)
    | (l, Err e) => (l, Err e)
    end.

Declare Scope prog_scope.
Delimit Scope prog_scope with prog.
Notation "x <- m ;; k" := (bind m (fun x => k))
  (at level 61, m at next level, right associativity) : prog_scope.
Notation "m ;;; k" := (bind m (fun _ => k))
  (at level 61, right associativity) : prog_scope.

Definition tell (ev : Event) : M unit := fun g => ([ev], Ok (tt, g)).

(** A pure, fallible computation. *)
Definition lift {A : Type} (r : result A) : M A :=
  fun g => ([], match r with Ok a => Ok (a, g) | Err e => Err e end).

(** A draw that cannot fail. *)
Definition draw {A : Type} (d : RNG -> A * RNG) : M A := fun g => ([], Ok (d g)).

(** A draw that can fail. *)
Definition draw_res {A : Type} (d : RNG -> result (A * RNG)) : M A := fun g => ([], d g).



(** ** The denoiser *)

(** What [DDPM] needs of [self.net]: a callable of the batch and the
    condition.  In evaluation mode it is a function of its arguments. *)
Definition Net : Type := tensor -> list Z -> result tensor.

Definition call_net (net : Net) (x : tensor) (c : list Z) : M tensor :=
  fun g => ([EvNet x c], match net x c with Ok y => Ok (y, g) | Err e => Err e end).

Definition Layer : Type := tensor -> result tensor.

(** The modules of [UNet.__init__], and the two torch functions of
    [UNet.forward] whose values no statement below depends on. *)
Record UNet : Type := {
  dconv_down1 : Layer;
  dconv_down2 : Layer;
  dconv_down3 : Layer;
  dconv_down4 : Layer;
  dconv_down5 : Layer;
  bottleneck : Layer;
  dconv_up4 : Layer;
  dconv_up3 : Layer;
  dconv_up2 : Layer;
  dconv_up1 : Layer;
  conv_last : Layer;
  torch_cat : list tensor -> result tensor;       (* torch.cat(..., dim=1) *)
  repeat_hw : tensor -> tensor -> result tensor   (* ch.repeat(1,1,x.size(2),x.size(3)) *)
}.

(** [UNet.forward(self, x, c)] *)
Definition UNet_forward (u : UNet) (x : tensor) (c : list Z) : result tensor :=
  (let start := x in
   conv1 <- dconv_down1 u x ;;
   conv2 <- dconv_down2 u conv1 ;;
   conv3 <- dconv_down3 u conv2 ;;
   conv4 <- dconv_down4 u conv3 ;;
   ch <- one_hot c 10 ;;
   x <- bottleneck u conv4 ;;
   r <- repeat_hw u ch x ;;
   x <- torch_cat u [x; conv4; r] ;;
   x <- dconv_up4 u x ;;
   r <- repeat_hw u ch x ;;
   x <- torch_cat u [x; conv3; r] ;;
   x <- dconv_up3 u x ;;
   x <- torch_cat u [x; conv2] ;;
   x <- dconv_up2 u x ;;
   x <- torch_cat u [x; conv1] ;;
   x <- dconv_up1 u x ;;
   x <- torch_cat u [x; start] ;;
   conv_last u x)%res.

(** ** DDPM *)

(** [F.mse_loss(a, b)] for operands of one shape: the mean of the squared
    differences.  (On unequal shapes torch warns and broadcasts; see
    [tbinop].) *)
Definition mse_loss (a b : tensor) : result R :=
  (d <- tsub a b ;;
   let sq := concat (map (map (fun v => (v * v)%R)) d) in
   Ok (fold_right Rplus 0%R sq / INR (length sq))%R)%res.

(** The expression bound to [x_t] in [DDPM.forward]:
    [sqrtab[_ts] * x + sqrtmab[_ts] * eps]. *)
Definition forward_x_t (s : Schedule) (_ts : list Z) (x eps : tensor) : result tensor :=
  (ca <- index_many (sqrtab s) _ts ;;
   l <- bscale ca x ;;
   cm <- index_many (sqrtmab s) _ts ;;
   r <- bscale cm eps ;;
   tadd l r)%res.

(** [DDPM.forward] after its first statement has drawn [_ts]. *)
Definition forward_given_ts (s : Schedule) (net : Net)
    (x : tensor) (c : list Z) (_ts : list Z) : M R :=
  (eps <- draw (randn_like x) ;;
   x_t <- lift (forward_x_t s _ts x eps) ;;
   out <- call_net net x_t c ;;
   lift (mse_loss eps out))%prog.

(** [DDPM.forward(self, x, c)], Algorithm 1 with conditionals. *)
Definition DDPM_forward (G : Globals) (s : Schedule) (net : Net)
    (x : tensor) (c : list Z) : M R :=
  (_ts <- draw_res (randint 1 (T G + 1) (length x)) ;;
   forward_given_ts s net x c _ts)%prog.

(** The assignment to [x_i] in the loop of [DDPM.sample]; [z = None] is the
    Python scalar [0] of the last iteration. *)
Definition sample_update (s : Schedule) (i : Z) (x_i eps : tensor) (z : option tensor)
    : result tensor :=
  (a <- index (oneover_sqrta s) i ;;
   m <- index (mab_over_sqrtmab_inv s) i ;;
   d <- tsub x_i (tscale_r eps m) ;;
   sg <- index (sigma_t s) i ;;
   match z with
   | Some zt => tadd (tscale a d) (tscale sg zt)
   | None => Ok (tadd_scalar (tscale a d) (sg * 0)%R)
   end)%res.

(** The body of the loop of [DDPM.sample]. *)
Definition sample_body (s : Schedule) (net : Net) (n_sample : nat) (size : list nat)
    (i : Z) (x_i : tensor) : M tensor :=
  (tell (EvIter i) ;;;
   z <- (if 1 <? i
         then (zt <- draw (randn n_sample size) ;; ret (Some zt))
         else ret None) ;;
   eps <- call_net net x_i (arange_n n_sample) ;;
   lift (sample_update s i x_i eps z))%prog.

(** [for i in idxs: a = body(i, a)] *)
Fixpoint for_each {A : Type} (body : Z -> A -> M A) (idxs : list Z) (a : A) : M A :=
  match idxs with
  | [] => ret a
  | i :: rest => (a' <- body i a ;; for_each body rest a')%prog
  end.

(** [DDPM.sample(self, n_sample, size)], Algorithm 2 with
    [torch.arange(n_sample)] conditionals. *)
Definition DDPM_sample (G : Globals) (s : Schedule) (net : Net)
    (n_sample : nat) (size : list nat) : M tensor :=
  (x_i <- draw (randn n_sample size) ;;
   for_each (sample_body s net n_sample size) (py_range (T G) 0 (-1)) x_i)%prog.

(** ** Vocabulary of the statements *)

(** The closed form of [beta_t[k]]. *)
Definition beta_at (G : Globals) (k : Z) : R :=
  ((beta2 G - beta1 G) * IZR k / IZR (T G) + beta1 G)%R.

(** Number of entries of [torch.arange(0, T + 1)]. *)
Definition steps (G : Globals) : nat := Z.to_nat (T G + 1).

(** Entry [t] of a schedule sequence, for an index known to be in range. *)
Definition entry (seq_t : list R) (t : Z) : R := nth (Z.to_nat t) seq_t 0%R.

(** The hyperparameters the specification calls valid. *)
Definition valid_config (G : Globals) : Prop :=
  1 <= T G /\ (0 < beta1 G)%R /\ (beta1 G < beta2 G)%R /\ (beta2 G < 1)%R.

(** A batch of zeros of the shape of [x]. *)
Definition zeros_like (x : tensor) : tensor := map (map (fun _ => 0%R)) x.


(** A configuration with [beta1 >= beta2]: the notebook's betas swapped. *)
Definition swapped_betas : Globals :=
  {| T := 400; beta1 := 0.02; beta2 := 1e-4; device := cpu |}.

(** The right-hand side of the assignment to [x_i], elementwise, in terms of
    the schedule entries at the current index. *)
Definition ddpm_step (a ab sigma : R) (xv ev zv : R) : R :=
  ((1 / sqrt a) * (xv - ev * ((1 - a) / sqrt (1 - ab))) + sigma * zv)%R.

(** The noise of iteration [i] and the generator state after drawing it. *)
Definition drawn_z (n_sample : nat) (size : list nat) (i : Z) (g : RNG)
    : option tensor * RNG :=
  if 1 <? i then (Some (fst (randn n_sample size g)), snd (randn n_sample size g))
  else (None, g).

(** The loop indices a run entered, in order. *)
Definition iterations (log : list Event) : list Z :=
  flat_map (fun ev => match ev with EvIter i => [i] | EvNet _ _ => [] end) log.

(** The argument lists the denoiser was called with, in order. *)
Definition net_calls (log : list Event) : list (tensor * list Z) :=
  flat_map (fun ev => match ev with EvIter _ => [] | EvNet x c => [(x, c)] end) log.

(** [n, n-1, ..., 1] *)
Definition countdown (n : Z) : list Z :=
  map (fun k => n - Z.of_nat k) (seq 0 (Z.to_nat n)).


(** The countdown of the reverse process, step by step as the specification
    writes it, from the state [x] and the generator [g] with which step [i]
    begins down to the state and the generator left after step 1.  Step [i]
    asks the denoiser for [eps] on the current state, takes [z] (a fresh
    draw when [i > 1], zeros when [i = 1]) and continues from
    [(1/sqrt(alpha_i)) * (x - eps * (1 - alpha_i)/sqrt(1 - alphabar_i)) + sigma_i * z].
    The fourth index is the log of the steps. *)
Inductive reverse_steps (s : Schedule) (net : Net) (n_sample : nat) (size : list nat)
    : Z -> tensor -> RNG -> list Event -> tensor -> RNG -> Prop :=
| reverse_done (x : tensor) (g : RNG) :
    reverse_steps s net n_sample size 0 x g [] x g
| reverse_step (i : Z) (x eps z x_final : tensor) (g g1 g_final : RNG) (log : list Event) :
    1 <= i ->
    net x (arange_n n_sample) = Ok eps ->
    (z, g1) = (if 1 <? i then randn n_sample size g else (zeros_like x, g)) ->
    reverse_steps s net n_sample size (i - 1)
      (map3 (map3 (ddpm_step (entry (alpha_t s) i) (entry (alphabar_t s) i)
                             (entry (sigma_t s) i))) x eps z)
      g1 log x_final g_final ->
    reverse_steps s net n_sample size i x g
      (EvIter i :: EvNet x (arange_n n_sample) :: log) x_final g_final.






(** The elementwise corruption of one sample at timestep [t]. *)
Definition corrupt_row (s : Schedule) (t : Z) (xr nr : list R) : list R :=
  map2 (fun xv nv =>
          (sqrt (entry (alphabar_t s) t) * xv + sqrt (1 - entry (alphabar_t s) t) * nv)%R)
       xr nr.

(** The inverse of the corruption that the specification writes down:
    [(x_t - sqrt(alphabar_t) * x0) / sqrt(1 - alphabar_t)], each sample with
    the coefficients of its own timestep. *)
Definition recover_noise (s : Schedule) (_ts : list Z) (x_t x0 : tensor) : tensor :=
  map3 (fun t =>
          map2 (fun xtv xv =>
                  ((xtv - sqrt (entry (alphabar_t s) t) * xv)
                   / sqrt (1 - entry (alphabar_t s) t))%R))
       _ts x_t x0.

(** ** Concrete instances, for exhibiting runs *)

Definition pass_through : Layer := fun x => Ok x.

(** A U-Net whose layers return their input and whose concatenation keeps
    its first operand: [UNet_forward] returns [x] once [F.one_hot] accepted
    the condition. *)
Definition toy_unet : UNet :=
  {| dconv_down1 := pass_through;
     dconv_down2 := pass_through;
     dconv_down3 := pass_through;
     dconv_down4 := pass_through;
     dconv_down5 := pass_through;
     bottleneck := pass_through;
     dconv_up4 := pass_through;
     dconv_up3 := pass_through;
     dconv_up2 := pass_through;
     dconv_up1 := pass_through;
     conv_last := pass_through;
     torch_cat := fun ts => match ts with t :: _ => Ok t | [] => Err (LayerFailure 0) end;
     repeat_hw := fun ch _ => Ok ch |}.

(** The generator whose every outcome is zero. *)
Definition zero_rng : RNG :=
  {| normal_tape := fun _ => 0%R; int_tape := fun _ => 0; cursor := 0 |}.

(** A denoiser that accepts every batch of the sampled shape, with the
    condition of [sample], and returns a batch of that shape. *)
Definition net_accepts (net : Net) (n_sample : nat) (size : list nat) : Prop :=
  forall x, shape x = repeat (numel size) n_sample ->
    exists eps, net x (arange_n n_sample) = Ok eps /\ shape eps = shape x.

(** ** The schedule and the corruption in float32

    The tensors of the schedule cell hold IEEE 754 binary32 values, so what
    is proved of the schedule over the reals holds of the tensors up to
    rounding only.  This section embeds the cell and the corruption a second
    time, over binary32 ([spec_float] with 24 bits of precision and
    exponents below 128), to exhibit where the rounded values leave the real
    ones.
    - [+], [-], [*], [/] and [sqrt] are the correctly rounded operations of
      the standard (to nearest, ties to even).
    - [beta1] and [beta2] are Python floats (binary64), and [beta2 - beta1]
      is a Python subtraction; in an operation with a float32 tensor torch
      rounds a Python scalar to float32 first.
    - [torch.log] and [torch.exp] are approximations whose last bit depends
      on the library: they are parameters ([Libm]).
    - [torch.cumsum] adds from left to right.
    The pixel transforms of the loader ([ToTensor], [Normalize]) and of the
    cells that show images are embedded here too. *)
Module F32.

Definition float : Type := spec_float.

Definition add : float -> float -> float := SFadd 24 128.
Definition sub : float -> float -> float := SFsub 24 128.
Definition mul : float -> float -> float := SFmul 24 128.
Definition div : float -> float -> float := SFdiv 24 128.
Definition sqrt : float -> float := SFsqrt 24 128.

Definition nan : float := S754_nan.

(** A Python int as float32. *)
Definition of_int (k : Z) : float := binary_normalize 24 128 k 0 false.

Definition one : float := of_int 1.

(** The Python float literal with the decimal value [num/den]: the nearest
    binary64 number. *)
Definition py_float (num den : Z) : spec_float :=
  SFdiv 53 1024 (binary_normalize 53 1024 num 0 false)
                (binary_normalize 53 1024 den 0 false).

(** A Python float as float32. *)
Definition of_py_float (x : spec_float) : float :=
  match x with
  | S754_finite sx m e => binary_normalize 24 128 (cond_Zopp sx (Zpos m)) e sx
  | _ => x
  end.

(** The notebook globals the cell reads. *)
Record Globals : Type := {
  T : Z;
  beta1 : spec_float;
  beta2 : spec_float
}.

(** [torch.log] and [torch.exp] on float32. *)
Record Libm : Type := {
  torch_log : float -> float;
  torch_exp : float -> float
}.

(** [beta_t = (beta2 - beta1) * torch.arange(0, T + 1, dtype=torch.float32) / T + beta1] *)
Definition beta_t (G : Globals) : result (list float) :=
  (ar <- arange 0 (T G + 1) ;;
   let d := of_py_float (SFsub 53 1024 (beta2 G) (beta1 G)) in
   Ok (map (fun k => add (div (mul d (of_int k)) (of_int (T G))) (of_py_float (beta1 G)))
           ar))%res.

(** [alpha_t = 1 - beta_t] *)
Definition alpha_t (G : Globals) : result (list float) :=
  (b <- beta_t G ;; Ok (map (fun v => sub one v) b))%res.

Fixpoint cumsum_acc (acc : float) (l : list float) : list float :=
  match l with
  | [] => []
  | x :: r => let a := add acc x in a :: cumsum_acc a r
  end.

Definition cumsum (l : list float) : list float :=
  match l with
  | [] => []
  | x :: r => x :: cumsum_acc x r
  end.

Record Schedule : Type := {
  log_alpha_t : list float;
  alphabar_t : list float;
  sqrtab : list float;
  sqrtmab : list float;
  oneover_sqrta : list float;
  mab_over_sqrtmab_inv : list float;
  sigma_t : list float
}.

(** The cell from [log_alpha_t] on. *)
Definition schedule_cell (m : Libm) (G : Globals) : result Schedule :=
  (beta_t <- beta_t G ;;
   alpha_t <- alpha_t G ;;
   let log_alpha_t := map (torch_log m) alpha_t in
   let alphabar_t := map (torch_exp m) (cumsum log_alpha_t) in
   let sqrtab := map sqrt alphabar_t in
   let sqrtmab := map (fun a => sqrt (sub one a)) alphabar_t in
   let oneover_sqrta := map (fun a => div one (sqrt a)) alpha_t in
   let mab_over_sqrtmab_inv := map2 div (map (fun a => sub one a) alpha_t) sqrtmab in
   let sigma_t := map sqrt beta_t in
   Ok {| log_alpha_t := log_alpha_t;
         alphabar_t := alphabar_t;
         sqrtab := sqrtab;
         sqrtmab := sqrtmab;
         oneover_sqrta := oneover_sqrta;
         mab_over_sqrtmab_inv := mab_over_sqrtmab_inv;
         sigma_t := sigma_t |})%res.

Definition tensor : Type := list (list float).

Definition shape (x : tensor) : list nat := map (@length float) x.

Definition index (t : list float) (i : Z) : result float :=
  let len := Z.of_nat (length t) in
  if (0 <=? i) && (i <? len) then Ok (nth (Z.to_nat i) t nan)
  else if (- len <=? i) && (i <? 0) then Ok (nth (Z.to_nat (len + i)) t nan)
  else Err IndexError.

Fixpoint index_many (t : list float) (idx : list Z) : result (list float) :=
  match idx with
  | [] => Ok []
  | i :: rest =>
      (v <- index t i ;;
       vs <- index_many t rest ;;
       Ok (v :: vs))%res
  end.

Definition bscale (coef : list float) (x : tensor) : result tensor :=
  if Nat.eqb (length coef) (length x)
  then Ok (map2 (fun a row => map (fun v => mul a v) row) coef x)
  else Err ShapeMismatch.

Definition tadd (x y : tensor) : result tensor :=
  if list_eq_dec Nat.eq_dec (shape x) (shape y) then Ok (map2 (map2 add) x y)
  else Err ShapeMismatch.

(** [x_t = sqrtab[_ts] * x + sqrtmab[_ts] * eps] *)
Definition forward_x_t (s : Schedule) (_ts : list Z) (x eps : tensor) : result tensor :=
  (ca <- index_many (sqrtab s) _ts ;;
   l <- bscale ca x ;;
   cm <- index_many (sqrtmab s) _ts ;;
   r <- bscale cm eps ;;
   tadd l r)%res.

(** The inverse the specification writes down, in float32 operations:
    [(x_t - sqrt(alphabar_t) * x0) / sqrt(1 - alphabar_t)]. *)
Definition recover_noise (s : Schedule) (_ts : list Z) (x_t x0 : tensor) : tensor :=
  map3 (fun t =>
          let ab := nth (Z.to_nat t) (alphabar_t s) nan in
          map2 (fun xtv xv => div (sub xtv (mul (sqrt ab) xv)) (sqrt (sub one ab))))
       _ts x_t x0.

(** The hyperparameters the specification calls valid, as Python compares
    them. *)
Definition valid_config (G : Globals) : Prop :=
  1 <= T G /\
  SFltb (py_float 0 1) (beta1 G) = true /\
  SFltb (beta1 G) (beta2 G) = true /\
  SFltb (beta2 G) (py_float 1 1) = true.


(** The values the notebook assigns: [T = 400], [beta1 = 1e-4], [beta2 = 0.02]. *)
Definition notebook_globals : Globals :=
  {| T := 400; beta1 := py_float 1 10000; beta2 := py_float 2 100 |}.



(** [transforms.ToTensor()] on a pixel [k] of an 8-bit image: [k / 255]. *)
Definition ToTensor (k : Z) : float := div (of_int k) (of_int 255).

(** [transforms.Normalize((mean,), (std,))] on one value: [(v - mean) / std]. *)
Definition Normalize (mean std : spec_float) (v : float) : float :=
  div (sub v (of_py_float mean)) (of_py_float std).

(** [x * 0.5 + 0.5], the transform of the cells that show images. *)
Definition to_display (v : float) : float :=
  add (mul v (of_py_float (py_float 5 10))) (of_py_float (py_float 5 10)).


End F32.

(** ** The dataset directory

    The cell that starts with [# path to the root directory containing
    images], in the autoencoder and in the GAN notebook: it lists
    [root_dir = 'R-X-Ray'], and when that holds no directory it creates
    ['R-X-Ray/fakeclass'] and moves every regular file into it.

    The file system is the tree under [root_dir]: [None] when the path
    does not resolve (nothing has that name, or a link that leads nowhere).
    [os.listdir] returns the names in the order of the entries.  Every
    directory is readable and writable: permission and input/output errors
    are outside the model. *)

Local Set Warnings "-register-all".

Inductive Node : Type :=
| File (data : string)                     (* a regular file with its content *)
| Dir (entries : list (string * Node))     (* a directory *)
| Special.   (* neither: a FIFO, a socket, a device; as an entry of a
                directory also a link that leads nowhere *)

Definition Entries : Type := list (string * Node).

Inductive os_error : Type :=
| FileNotFoundError
| NotADirectoryError
| FileExistsError
| DestinationExists.   (* shutil.move onto an existing path: its outcomes are not modelled *)

Inductive os_result (A : Type) : Type :=
| Done (a : A)
| Raised (e : os_error).
Arguments Done {A} a.
Arguments Raised {A} e.

Fixpoint lookup (name : string) (es : Entries) : option Node :=
  match es with
  | [] => None
  | (n, v) :: rest => if String.eqb n name then Some v else lookup name rest
  end.

(** [os.path.isdir(os.path.join(root_dir, name))] *)
Definition isdir (es : Entries) (name : string) : bool :=
  match lookup name es with Some (Dir _) => true | _ => false end.

(** [os.path.isfile(os.path.join(root_dir, name))] *)
Definition isfile (es : Entries) (name : string) : bool :=
  match lookup name es with Some (File _) => true | _ => false end.

Definition remove_entry (name : string) (es : Entries) : Entries :=
  filter (fun e => negb (String.eqb (fst e) name)) es.

Definition update_entry (name : string) (v : Node) (es : Entries) : Entries :=
  map (fun e => if String.eqb (fst e) name then (fst e, v) else e) es.

(** [os.makedirs(os.path.join(root_dir, name), exist_ok=True)], [root_dir]
    existing. *)
Definition makedirs_exist_ok (es : Entries) (name : string) : os_result Entries :=
  match lookup name es with
  | None => Done (es ++ [(name, Dir [])])
  | Some (Dir _) => Done es
  | Some _ => Raised FileExistsError
  end.

(** [shutil.move(root_dir/file_name, root_dir/class_name/file_name)] *)
Definition move_into (file_name class_name : string) (es : Entries) : os_result Entries :=
  match lookup file_name es, lookup class_name es with
  | Some node, Some (Dir inner) =>
      match lookup file_name inner with
      | None =>
          Done (update_entry class_name (Dir (inner ++ [(file_name, node)]))
                  (remove_entry file_name es))
      | Some _ => Raised DestinationExists
      end
  | None, _ => Raised FileNotFoundError
  | Some _, None => Raised FileNotFoundError
  | Some _, Some _ => Raised NotADirectoryError
  end.

(** The loop [for file_name in os.listdir(root_dir): ...] over the listing
    [names] taken before its first iteration. *)
Fixpoint move_files (names : list string) (class_name : string) (es : Entries)
    : os_result Entries :=
  match names with
  | [] => Done es
  | file_name :: rest =>
      if isfile es file_name
      then match move_into file_name class_name es with
           | Done es' => move_files rest class_name es'
           | Raised e => Raised e
           end
      else move_files rest class_name es
  end.

(** What the cell prints. *)
Inductive Message : Type :=
| CreatedAndMoved (class_dir : string)
| AlreadyFound (subdirectories : list string).

Definition prepare_dataset_dir (root : option Node) : os_result (Node * Message) :=
  match root with
  | None => Raised FileNotFoundError
  | Some (Dir es) =>
      let subdirectories := filter (isdir es) (map fst es) in
      match subdirectories with
      | [] =>
          match makedirs_exist_ok es "fakeclass" with
          | Done es1 =>
              match move_files (map fst es1) "fakeclass" es1 with
              | Done es2 => Done (Dir es2, CreatedAndMoved "R-X-Ray/fakeclass")
              | Raised e => Raised e
              end
          | Raised e => Raised e
          end
      | _ :: _ => Done (Dir es, AlreadyFound subdirectories)
      end
  | Some _ => Raised NotADirectoryError
  end.

Definition is_file_entry (e : string * Node) : bool :=
  match snd e with File _ => true | _ => false end.

Definition is_dir_entry (e : string * Node) : bool :=
  match snd e with Dir _ => true | _ => false end.

(** * Properties *)

(** ** The primitives on small inputs *)

Example py_range_5 : py_range 5 0 (-1) = [5; 4; 3; 2; 1].
Proof. reflexivity. Qed.

Example py_range_empty : py_range 0 0 (-1) = [].
Proof. reflexivity. Qed.

Example arange_0_3 : arange 0 3 = Ok [0; 1; 2].
Proof. reflexivity. Qed.

Example arange_negative : arange 0 (-1) = Err ArangeBounds.
Proof. reflexivity. Qed.

Example cumsum_3 (a b c : R) : cumsum [a; b; c] = [a; a + b; a + b + c]%R.
Proof. reflexivity. Qed.

Example one_hot_2 : one_hot [0; 2] 3 = Ok [[1; 0; 0]; [0; 0; 1]]%R.
Proof. reflexivity. Qed.

Example one_hot_class_10 : one_hot [9; 10] 10 = Err OneHotClass.
Proof. reflexivity. Qed.

Example index_last (a b c : R) : index [a; b; c] (-1) = Ok c.
Proof. reflexivity. Qed.

Example index_out (a b c : R) : index [a; b; c] 3 = Err IndexError.
Proof. reflexivity. Qed.

Example bscale_2 (a b x y z w : R) :
  bscale [a; b] [[x; y]; [z; w]] = Ok [[a * x; a * y]; [b * z; b * w]]%R.
Proof. reflexivity. Qed.

Example schedule_of_one_step (b1 b2 : R) :
  exists s, schedule_cell {| T := 1; beta1 := b1; beta2 := b2; device := cpu |} = Ok s /\
    beta_t s = [(b2 - b1) * 0 / 1 + b1; (b2 - b1) * 1 / 1 + b1]%R /\
    alphabar_t s =
      [exp (ln (1 - ((b2 - b1) * 0 / 1 + b1)));
       exp (ln (1 - ((b2 - b1) * 0 / 1 + b1)) + ln (1 - ((b2 - b1) * 1 / 1 + b1)))]%R /\
    mab_over_sqrtmab_inv s =
      map2 (fun a ab => ((1 - a) / sqrt (1 - ab))%R) (alpha_t s) (alphabar_t s).
Proof. eexists; repeat split. Qed.

(** ** Lists *)

Lemma map2_length {A B C : Type} (f : A -> B -> C) (l : list A) (m : list B) :
  length l = length m -> length (map2 f l m) = length l.
Proof.
  revert m; induction l as [|a l IH]; intros [|b m]; simpl; intros H; try easy.
  f_equal; apply IH; congruence.
Qed.

Lemma nth_map_in {A B : Type} (f : A -> B) (l : list A) (i : nat) (d : A) (d' : B) :
  (i < length l)%nat -> nth i (map f l) d' = f (nth i l d).
Proof.
  revert i; induction l as [|a l IH]; intros [|i]; simpl; intros H; try lia; auto.
  apply IH; lia.
Qed.

Lemma nth_map2_in {A B C : Type} (f : A -> B -> C) (l : list A) (m : list B)
    (i : nat) (da : A) (db : B) (dc : C) :
  (i < length l)%nat -> (i < length m)%nat ->
  nth i (map2 f l m) dc = f (nth i l da) (nth i m db).
Proof.
  revert m i; induction l as [|a l IH]; intros [|b m] [|i]; simpl; intros H1 H2;
    try lia; auto.
  apply IH; lia.
Qed.

Lemma nth_seq_in (start len i : nat) :
  (i < len)%nat -> nth i (seq start len) 0%nat = (start + i)%nat.
Proof. intros H; apply seq_nth; exact H. Qed.

Lemma map2_map_map {A A' B B' C : Type} (f : A' -> B' -> C) (g : A -> A') (h : B -> B')
    (l : list A) (m : list B) :
  map2 f (map g l) (map h m) = map2 (fun a b => f (g a) (h b)) l m.
Proof.
  revert m; induction l as [|a l IH]; intros [|b m]; simpl; try easy.
  f_equal; apply IH.
Qed.

Lemma map2_map_l {A A' B C : Type} (f : A' -> B -> C) (g : A -> A')
    (l : list A) (m : list B) :
  map2 f (map g l) m = map2 (fun a b => f (g a) b) l m.
Proof.
  revert m; induction l as [|a l IH]; intros [|b m]; simpl; try easy.
  f_equal; apply IH.
Qed.

Lemma map_map2 {A B C D : Type} (g : C -> D) (f : A -> B -> C) (l : list A) (m : list B) :
  map g (map2 f l m) = map2 (fun a b => g (f a b)) l m.
Proof.
  revert m; induction l as [|a l IH]; intros [|b m]; simpl; try easy.
  f_equal; apply IH.
Qed.

Lemma map2_map2_l {A B C D E : Type} (f : C -> D -> E) (h : A -> B -> C)
    (l : list A) (m : list B) (n : list D) :
  map2 f (map2 h l m) n = map3 (fun a b c => f (h a b) c) l m n.
Proof.
  revert m n; induction l as [|a l IH]; intros [|b m] [|c n]; simpl; try easy.
  f_equal; apply IH.
Qed.

Lemma map2_ext {A B C : Type} (f g : A -> B -> C) (l : list A) (m : list B) :
  (forall a b, f a b = g a b) -> map2 f l m = map2 g l m.
Proof.
  intros H; revert m; induction l as [|a l IH]; intros [|b m]; simpl; try easy.
  rewrite H, IH; reflexivity.
Qed.

Lemma map3_ext {A B C D : Type} (f g : A -> B -> C -> D) l m n :
  (forall a b c, f a b c = g a b c) -> map3 f l m n = map3 g l m n.
Proof.
  intros H; revert m n; induction l as [|a l IH]; intros [|b m] [|c n]; simpl; try easy.
  rewrite H, IH; reflexivity.
Qed.

Lemma map2_map_r_same {A B C : Type} (f : A -> B -> C) (g : A -> B) (l : list A) :
  map2 f l (map g l) = map (fun a => f a (g a)) l.
Proof. induction l as [|a l IH]; simpl; congruence. Qed.

(** [range(T, 0, -1)] is the countdown [T, T-1, ..., 1]. *)
Lemma py_range_countdown (n : Z) :
  py_range n 0 (-1) = map (fun k => n - Z.of_nat k) (seq 0 (Z.to_nat n)).
Proof.
  unfold py_range; simpl.
  replace (n - 0 - -1 - 1) with n by lia.
  rewrite Z.div_1_r.
  apply map_ext; intros k; lia.
Qed.

Lemma py_range_countdown_cons (n : Z) :
  1 <= n -> py_range n 0 (-1) = n :: py_range (n - 1) 0 (-1).
Proof.
  intros Hn; rewrite !py_range_countdown.
  replace (Z.to_nat n) with (S (Z.to_nat (n - 1))) by lia.
  rewrite <- cons_seq; simpl. f_equal; [lia|].
  rewrite <- seq_shift, map_map.
  apply map_ext; intros k; lia.
Qed.

Lemma py_range_countdown_nil (n : Z) : n <= 0 -> py_range n 0 (-1) = [].
Proof.
  intros Hn; rewrite py_range_countdown.
  replace (Z.to_nat n) with 0%nat by lia; reflexivity.
Qed.

(** ** Indexing *)

Lemma index_in (t : list R) (i : Z) :
  0 <= i < Z.of_nat (length t) -> index t i = Ok (nth (Z.to_nat i) t 0%R).
Proof.
  intros [H1 H2]; unfold index.
  destruct (Z.leb_spec 0 i); [|lia].
  destruct (Z.ltb_spec i (Z.of_nat (length t))); [|lia].
  reflexivity.
Qed.

Lemma index_many_in (t : list R) (idx : list Z) :
  Forall (fun i => 0 <= i < Z.of_nat (length t)) idx ->
  index_many t idx = Ok (map (fun i => nth (Z.to_nat i) t 0%R) idx).
Proof.
  induction 1 as [|i idx Hi _ IH]; simpl; [reflexivity|].
  rewrite (index_in _ _ Hi); simpl. rewrite IH; reflexivity.
Qed.

(** ** The schedule *)

Lemma cumsum_acc_length (acc : R) (l : list R) : length (cumsum_acc acc l) = length l.
Proof. revert acc; induction l as [|x l IH]; intros acc; simpl; [|rewrite IH]; reflexivity. Qed.

Lemma cumsum_length (l : list R) : length (cumsum l) = length l.
Proof. destruct l; simpl; [|rewrite cumsum_acc_length]; reflexivity. Qed.




Lemma cumsum_nth_0 (l : list R) : nth 0 (cumsum l) 0%R = nth 0 l 0%R.
Proof. destruct l; reflexivity. Qed.

Lemma arange_0 (hi : Z) :
  0 <= hi -> arange 0 hi = Ok (map Z.of_nat (seq 0 (Z.to_nat hi))).
Proof.
  intros H; unfold arange.
  destruct (Z.ltb_spec hi 0); [lia|].
  rewrite Z.sub_0_r; reflexivity.
Qed.

Lemma arange_err (lo hi : Z) : hi < lo -> arange lo hi = Err ArangeBounds.
Proof. intros H; unfold arange; destruct (Z.ltb_spec hi lo); [reflexivity|lia]. Qed.

Lemma arange_result (lo hi : Z) (l : list Z) :
  arange lo hi = Ok l -> lo <= hi.
Proof. unfold arange; destruct (Z.ltb_spec hi lo); [discriminate|lia]. Qed.

Section ScheduleFacts.

Variables (G : Globals) (s : Schedule).
Hypothesis Hs : schedule_cell G = Ok s.

Lemma schedule_T_lower : -1 <= T G.
Proof.
  unfold schedule_cell in Hs.
  destruct (arange 0 (T G + 1)) as [ar|e] eqn:Ha; [|discriminate].
  apply arange_result in Ha; lia.
Qed.

Lemma schedule_fields :
  placed_on s = device G /\
  beta_t s = map (fun k => beta_at G (Z.of_nat k)) (seq 0 (steps G)) /\
  alpha_t s = map (fun b => (1 - b)%R) (beta_t s) /\
  log_alpha_t s = map ln (alpha_t s) /\
  alphabar_t s = map exp (cumsum (log_alpha_t s)) /\
  sqrtab s = map sqrt (alphabar_t s) /\
  sqrtmab s = map (fun a => sqrt (1 - a)) (alphabar_t s) /\
  oneover_sqrta s = map (fun a => (1 / sqrt a)%R) (alpha_t s) /\
  mab_over_sqrtmab_inv s =
    map2 (fun a m => (a / m)%R) (map (fun a => (1 - a)%R) (alpha_t s)) (sqrtmab s) /\
  sigma_t s = map sqrt (beta_t s).
Proof.
  pose proof schedule_T_lower as HT.
  unfold schedule_cell in Hs.
  rewrite arange_0 in Hs by lia. simpl in Hs.
  injection Hs as <-. simpl.
  rewrite map_map. unfold steps, beta_at.
  repeat split; reflexivity.
Qed.

Lemma beta_t_length : length (beta_t s) = steps G.
Proof.
  destruct schedule_fields as (_ & -> & _).
  now rewrite length_map, length_seq.
Qed.

Lemma alpha_t_length : length (alpha_t s) = steps G.
Proof.
  destruct schedule_fields as (_ & _ & -> & _).
  now rewrite length_map, beta_t_length.
Qed.

Lemma log_alpha_t_length : length (log_alpha_t s) = steps G.
Proof.
  destruct schedule_fields as (_ & _ & _ & -> & _).
  now rewrite length_map, alpha_t_length.
Qed.

Lemma alphabar_t_length : length (alphabar_t s) = steps G.
Proof.
  destruct schedule_fields as (_ & _ & _ & _ & -> & _).
  now rewrite length_map, cumsum_length, log_alpha_t_length.
Qed.

Lemma sqrtab_length : length (sqrtab s) = steps G.
Proof.
  destruct schedule_fields as (_ & _ & _ & _ & _ & -> & _).
  now rewrite length_map, alphabar_t_length.
Qed.

Lemma sqrtmab_length : length (sqrtmab s) = steps G.
Proof.
  destruct schedule_fields as (_ & _ & _ & _ & _ & _ & -> & _).
  now rewrite length_map, alphabar_t_length.
Qed.

Lemma oneover_sqrta_length : length (oneover_sqrta s) = steps G.
Proof.
  destruct schedule_fields as (_ & _ & _ & _ & _ & _ & _ & -> & _).
  now rewrite length_map, alpha_t_length.
Qed.

Lemma mab_over_sqrtmab_inv_length : length (mab_over_sqrtmab_inv s) = steps G.
Proof.
  destruct schedule_fields as (_ & _ & _ & _ & _ & _ & _ & _ & -> & _).
  rewrite map2_length; rewrite length_map, alpha_t_length; [reflexivity|].
  now rewrite sqrtmab_length.
Qed.

Lemma sigma_t_length : length (sigma_t s) = steps G.
Proof.
  destruct schedule_fields as (_ & _ & _ & _ & _ & _ & _ & _ & _ & ->).
  now rewrite length_map, beta_t_length.
Qed.

(** Entry [i] of each sequence, for an index [i] of the schedule. *)
Variable i : nat.
Hypothesis Hi : (i < steps G)%nat.

Lemma beta_t_nth : nth i (beta_t s) 0%R = beta_at G (Z.of_nat i).
Proof.
  destruct schedule_fields as (_ & -> & _).
  rewrite (nth_map_in _ _ _ 0%nat) by now rewrite length_seq.
  now rewrite nth_seq_in.
Qed.

Lemma alpha_t_nth : nth i (alpha_t s) 0%R = (1 - nth i (beta_t s) 0%R)%R.
Proof.
  destruct schedule_fields as (_ & _ & -> & _).
  apply nth_map_in; now rewrite beta_t_length.
Qed.

Lemma log_alpha_t_nth : nth i (log_alpha_t s) 0%R = ln (nth i (alpha_t s) 0%R).
Proof.
  destruct schedule_fields as (_ & _ & _ & -> & _).
  apply nth_map_in; now rewrite alpha_t_length.
Qed.

Lemma alphabar_t_nth : nth i (alphabar_t s) 0%R = exp (nth i (cumsum (log_alpha_t s)) 0%R).
Proof.
  destruct schedule_fields as (_ & _ & _ & _ & -> & _).
  apply nth_map_in; now rewrite cumsum_length, log_alpha_t_length.
Qed.

Lemma sqrtab_nth : nth i (sqrtab s) 0%R = sqrt (nth i (alphabar_t s) 0%R).
Proof.
  destruct schedule_fields as (_ & _ & _ & _ & _ & -> & _).
  apply nth_map_in; now rewrite alphabar_t_length.
Qed.

Lemma sqrtmab_nth : nth i (sqrtmab s) 0%R = sqrt (1 - nth i (alphabar_t s) 0%R).
Proof.
  destruct schedule_fields as (_ & _ & _ & _ & _ & _ & -> & _).
  rewrite (nth_map_in _ _ _ 0%R); [reflexivity | now rewrite alphabar_t_length].
Qed.

Lemma oneover_sqrta_nth : nth i (oneover_sqrta s) 0%R = (1 / sqrt (nth i (alpha_t s) 0%R))%R.
Proof.
  destruct schedule_fields as (_ & _ & _ & _ & _ & _ & _ & -> & _).
  rewrite (nth_map_in _ _ _ 0%R); [reflexivity | now rewrite alpha_t_length].
Qed.

Lemma mab_over_sqrtmab_inv_nth :
  nth i (mab_over_sqrtmab_inv s) 0%R =
  ((1 - nth i (alpha_t s) 0%R) / sqrt (1 - nth i (alphabar_t s) 0%R))%R.
Proof.
  destruct schedule_fields as (_ & _ & _ & _ & _ & _ & _ & _ & -> & _).
  rewrite (nth_map2_in _ _ _ _ 0%R 0%R).
  - rewrite (nth_map_in _ _ _ 0%R) by now rewrite alpha_t_length.
    now rewrite sqrtmab_nth.
  - now rewrite length_map, alpha_t_length.
  - now rewrite sqrtmab_length.
Qed.

Lemma sigma_t_nth : nth i (sigma_t s) 0%R = sqrt (nth i (beta_t s) 0%R).
Proof.
  destruct schedule_fields as (_ & _ & _ & _ & _ & _ & _ & _ & _ & ->).
  rewrite (nth_map_in _ _ _ 0%R); [reflexivity | now rewrite beta_t_length].
Qed.

End ScheduleFacts.

Lemma schedule_cell_total (G : Globals) :
  -1 <= T G -> exists s, schedule_cell G = Ok s.
Proof.
  intros H; unfold schedule_cell.
  rewrite arange_0 by lia; simpl; eauto.
Qed.

(** ** The schedule of a valid configuration *)

Section ValidSchedule.

Variables (G : Globals) (s : Schedule).
Hypothesis Hv : valid_config G.
Hypothesis Hs : schedule_cell G = Ok s.

Lemma steps_valid : steps G = S (Z.to_nat (T G)).
Proof. destruct Hv as (HT & _); unfold steps; lia. Qed.

Lemma beta_at_bounds (k : Z) :
  0 <= k <= T G -> (beta1 G <= beta_at G k <= beta2 G)%R.
Proof.
  destruct Hv as (HT & H1 & H2 & H3); intros [Hk0 Hk1].
  assert (HTr : (0 < IZR (T G))%R) by (apply IZR_lt; lia).
  assert (Hk0r : (0 <= IZR k)%R) by (apply IZR_le; lia).
  assert (Hk1r : (IZR k <= IZR (T G))%R) by (apply IZR_le; lia).
  unfold beta_at.
  set (r := (IZR k / IZR (T G))%R).
  assert (Hr0 : (0 <= r)%R).
  { unfold r; apply Rmult_le_pos; [lra|]. left; apply Rinv_0_lt_compat; lra. }
  assert (Hr1 : (r <= 1)%R).
  { unfold r. apply (Rmult_le_reg_r (IZR (T G))); [lra|].
    unfold Rdiv; rewrite Rmult_assoc, Rinv_l by lra; lra. }
  replace ((beta2 G - beta1 G) * IZR k / IZR (T G))%R
    with ((beta2 G - beta1 G) * r)%R by (unfold r; field; lra).
  split; nra.
Qed.

Lemma alpha_t_bounds (i : nat) :
  (i < steps G)%nat -> (0 < nth i (alpha_t s) 0 < 1)%R.
Proof.
  intros Hi. destruct Hv as (HT & H1 & H2 & H3).
  rewrite (alpha_t_nth G s Hs i Hi), (beta_t_nth G s Hs i Hi).
  pose proof (beta_at_bounds (Z.of_nat i)) as Hb.
  rewrite steps_valid in Hi.
  specialize (Hb ltac:(lia)). lra.
Qed.

Lemma log_alpha_t_neg (i : nat) :
  (i < steps G)%nat -> (nth i (log_alpha_t s) 0 < 0)%R.
Proof.
  intros Hi. rewrite (log_alpha_t_nth G s Hs i Hi).
  destruct (alpha_t_bounds i Hi) as [H0 H1].
  pose proof (ln_increasing _ _ H0 H1) as H. rewrite ln_1 in H. exact H.
Qed.



Lemma alphabar_t_first : nth 0 (alphabar_t s) 0%R = (1 - beta1 G)%R.
Proof.
  assert (H0 : (0 < steps G)%nat) by (rewrite steps_valid; lia).
  rewrite (alphabar_t_nth G s Hs 0 H0), cumsum_nth_0.
  rewrite (log_alpha_t_nth G s Hs 0 H0).
  rewrite exp_ln by apply (alpha_t_bounds 0 H0).
  rewrite (alpha_t_nth G s Hs 0 H0), (beta_t_nth G s Hs 0 H0).
  unfold beta_at; simpl. unfold Rdiv; rewrite Rmult_0_r, Rmult_0_l; lra.
Qed.





End ValidSchedule.

(** ** Claims about the schedule *)




Lemma notebook_config_valid (d : Device) : valid_config (notebook_globals d).
Proof. unfold valid_config, notebook_globals; simpl; repeat split; try lia; lra. Qed.


(** C6, as stated, fails on the notebook's own configuration: the first
    entry of [alphabar_t] is [cumsum(log_alpha_t)[0].exp() = alpha_t[0]
    = 1 - beta1 = 0.9999], not 1. *)
Lemma alphabar_0_is_not_1 :
  valid_config (notebook_globals cpu) /\
  exists s, schedule_cell (notebook_globals cpu) = Ok s /\
    entry (alphabar_t s) 0 = 0.9999%R /\
    entry (alphabar_t s) 0 <> 1%R.
Proof.
  split; [apply notebook_config_valid|].
  destruct (schedule_cell_total (notebook_globals cpu)) as [s Hs]; [simpl; lia|].
  exists s; split; [exact Hs|].
  pose proof (alphabar_t_first _ s (notebook_config_valid cpu) Hs) as H.
  unfold entry; simpl Z.to_nat. rewrite H; simpl. split; lra.
Qed.

Lemma randint_range (lo hi : Z) (n : nat) (g : RNG) :
  lo < hi ->
  randint lo hi n g =
    Ok (map (fun k => lo + (int_tape g (cursor g + k)%nat) mod (hi - lo)) (seq 0 n),
        advance g n) /\
  Forall (fun t => lo <= t < hi)
    (map (fun k => lo + (int_tape g (cursor g + k)%nat) mod (hi - lo)) (seq 0 n)).
Proof.
  intros H; unfold randint.
  destruct (Z.leb_spec hi lo); [lia|]. split; [reflexivity|].
  apply Forall_forall; intros t Ht.
  apply in_map_iff in Ht as (k & <- & _).
  pose proof (Z.mod_pos_bound (int_tape g (cursor g + k)%nat) (hi - lo) ltac:(lia)). lia.
Qed.

Lemma bind_draw_res {A B : Type} (d : RNG -> result (A * RNG)) (f : A -> M B)
    (g g' : RNG) (a : A) :
  d g = Ok (a, g') -> bind (draw_res d) f g = f a g'.
Proof.
  intros H; unfold bind, draw_res; rewrite H.
  destruct (f a g') as [l r]; reflexivity.
Qed.

(** The timesteps [DDPM.forward] draws are [length x] integers of [1 .. T]. *)
Lemma DDPM_forward_timesteps (G : Globals) (s : Schedule) (net : Net)
    (x : tensor) (c : list Z) (g : RNG) :
  1 <= T G ->
  exists _ts g1,
    randint 1 (T G + 1) (length x) g = Ok (_ts, g1) /\
    length _ts = length x /\
    Forall (fun t => 1 <= t <= T G) _ts /\
    DDPM_forward G s net x c g = forward_given_ts s net x c _ts g1.
Proof.
  intros HT.
  destruct (randint_range 1 (T G + 1) (length x) g ltac:(lia)) as [Hr Hin].
  eexists _, _; split; [exact Hr|]. split; [|split].
  - now rewrite length_map, length_seq.
  - eapply Forall_impl; [|exact Hin]. simpl; intros; lia.
  - unfold DDPM_forward. apply bind_draw_res. exact Hr.
Qed.

(** C6, amended.  For every valid configuration the first entry of
    [alphabar_t] is [exp(log(alpha_t[0]))] with [alpha_t[0] = 1 - beta_t[0]]
    and [beta_t[0] = (beta2 - beta1) * 0 / T + beta1], which is [beta1]: the
    cumulative sum starts with [log(alpha_t[0])], not with 0, so entry 0
    already carries the decay of one step.  And the timesteps that
    [DDPM.forward] draws for training all lie in [1 .. T]. *)
Theorem alphabar_0_and_training_timesteps (G : Globals) (s : Schedule) :
  valid_config G ->
  schedule_cell G = Ok s ->
  entry (beta_t s) 0 = ((beta2 G - beta1 G) * 0 / IZR (T G) + beta1 G)%R /\
  entry (alpha_t s) 0 = (1 - entry (beta_t s) 0)%R /\
  entry (log_alpha_t s) 0 = ln (entry (alpha_t s) 0) /\
  entry (alphabar_t s) 0 = exp (entry (log_alpha_t s) 0) /\
  forall (net : Net) (x : tensor) (c : list Z) (g : RNG),
  exists _ts g1,
    randint 1 (T G + 1) (length x) g = Ok (_ts, g1) /\
    length _ts = length x /\
    Forall (fun t => 1 <= t <= T G) _ts /\
    DDPM_forward G s net x c g = forward_given_ts s net x c _ts g1.
Proof.
  intros Hv Hs. pose proof Hv as (HT & Hb1 & _).
  assert (H0 : (0 < steps G)%nat) by (rewrite (steps_valid G Hv); lia).
  unfold entry; simpl Z.to_nat. split; [|split; [|split; [|split]]].
  - rewrite (beta_t_nth G s Hs 0 H0). reflexivity.
  - apply (alpha_t_nth G s Hs 0 H0).
  - apply (log_alpha_t_nth G s Hs 0 H0).
  - rewrite (alphabar_t_nth G s Hs 0 H0). f_equal. apply cumsum_nth_0.
  - intros net x c g. now apply DDPM_forward_timesteps.
Qed.

Lemma alphabar_0_and_training_timesteps_witness :
  exists s, schedule_cell (notebook_globals cpu) = Ok s /\
    entry (beta_t s) 0 = ((0.02 - 1e-4) * 0 / 400 + 1e-4)%R /\
    entry (alphabar_t s) 0 = exp (entry (log_alpha_t s) 0).
Proof.
  destruct (schedule_cell_total (notebook_globals cpu)) as [s Hs]; [simpl; lia|].
  exists s; split; [exact Hs|].
  destruct (alphabar_0_and_training_timesteps (notebook_globals cpu) s)
    as (H1 & _ & _ & H2 & _); [|exact Hs|split; [exact H1|exact H2]].
  unfold valid_config, notebook_globals; simpl; repeat split; try lia; lra.
Defined.

(** C3, as stated, fails: with [beta1 >= beta2] (the notebook's betas
    swapped) the cell raises nothing and defines all its sequences. *)
Lemma swapped_betas_accepted :
  ~ valid_config swapped_betas /\
  (beta2 swapped_betas <= beta1 swapped_betas)%R /\
  schedule_cell swapped_betas <> Err InvalidConfiguration /\
  exists s, schedule_cell swapped_betas = Ok s.
Proof.
  split; [|split; [|split]].
  - unfold valid_config, swapped_betas; cbn [T beta1 beta2]. intros (_ & _ & H & _). lra.
  - unfold swapped_betas; cbn [beta1 beta2]; lra.
  - destruct (schedule_cell_total swapped_betas) as [s Hs]; [simpl; lia|].
    rewrite Hs; discriminate.
  - apply schedule_cell_total; simpl; lia.
Qed.

(** C3, amended.  The cell validates nothing: it never raises
    [InvalidConfiguration], it defines the schedule for every [T >= 0]
    whatever the betas, and in particular for every valid configuration. *)
Theorem schedule_cell_validates_nothing (G : Globals) :
  schedule_cell G <> Err InvalidConfiguration /\
  (0 <= T G -> exists s, schedule_cell G = Ok s) /\
  (valid_config G -> exists s, schedule_cell G = Ok s).
Proof.
  split; [|split].
  - unfold schedule_cell.
    destruct (arange 0 (T G + 1)) as [ar|e] eqn:Ha; simpl; [discriminate|].
    unfold arange in Ha. destruct (T G + 1 <? 0); [|discriminate].
    injection Ha as <-; discriminate.
  - intros H; apply schedule_cell_total; lia.
  - intros (H & _); apply schedule_cell_total; lia.
Qed.

Lemma schedule_cell_validates_nothing_witness :
  (exists s, schedule_cell swapped_betas = Ok s) /\
  (exists s, schedule_cell (notebook_globals cuda) = Ok s).
Proof.
  split.
  - destruct (schedule_cell_validates_nothing swapped_betas) as (_ & H & _).
    apply H; simpl; lia.
  - apply (schedule_cell_validates_nothing (notebook_globals cuda)).
    unfold valid_config, notebook_globals; simpl; repeat split; try lia; lra.
Defined.

(** ** Batches *)

Lemma shape_eqb_true (x y : tensor) : shape x = shape y -> shape_eqb x y = true.
Proof.
  intros H; unfold shape_eqb.
  destruct (list_eq_dec Nat.eq_dec (shape x) (shape y)); [reflexivity|contradiction].
Qed.

Lemma tbinop_ok (f : R -> R -> R) (x y : tensor) :
  shape x = shape y -> tbinop f x y = Ok (map2 (map2 f) x y).
Proof. intros H; unfold tbinop; now rewrite shape_eqb_true. Qed.

Lemma shape_map (f : R -> R) (x : tensor) : shape (map (map f) x) = shape x.
Proof.
  unfold shape; rewrite map_map. apply map_ext; intros r; apply length_map.
Qed.

Lemma shape_map2 (f : R -> R -> R) (x y : tensor) :
  shape x = shape y -> shape (map2 (map2 f) x y) = shape x.
Proof.
  unfold shape; revert y; induction x as [|r x IH]; intros [|r' y]; simpl; intros H;
    try easy.
  injection H as Hr Hx. rewrite (IH y Hx), map2_length; auto.
Qed.

Lemma shape_length (x y : tensor) : shape x = shape y -> length x = length y.
Proof. unfold shape; intros H; apply (f_equal (@length nat)) in H; now rewrite !length_map in H. Qed.

Lemma shape_zeros_like (x : tensor) : shape (zeros_like x) = shape x.
Proof. apply shape_map. Qed.

Lemma map2_map_r {A B B' C : Type} (f : A -> B' -> C) (g : B -> B')
    (l : list A) (m : list B) :
  map2 f l (map g m) = map2 (fun a b => f a (g b)) l m.
Proof.
  revert m; induction l as [|a l IH]; intros [|b m]; simpl; try easy.
  f_equal; apply IH.
Qed.

Lemma tmap2_map_r (f : R -> R -> R) (g : R -> R) (x y : tensor) :
  map2 (map2 f) x (map (map g) y) = map2 (map2 (fun a b => f a (g b))) x y.
Proof.
  rewrite map2_map_r. apply map2_ext; intros r r'; apply map2_map_r.
Qed.

Lemma tmap_map2 (h : R -> R) (k : R -> R -> R) (x y : tensor) :
  map (map h) (map2 (map2 k) x y) = map2 (map2 (fun a b => h (k a b))) x y.
Proof.
  rewrite map_map2. apply map2_ext; intros r r'; apply map_map2.
Qed.

Lemma tmap2_map2_map (f k : R -> R -> R) (q : R -> R) (x y z : tensor) :
  map2 (map2 f) (map2 (map2 k) x y) (map (map q) z) =
  map3 (map3 (fun a b c => f (k a b) (q c))) x y z.
Proof.
  rewrite map2_map_r, map2_map2_l.
  apply map3_ext; intros a b c.
  rewrite map2_map_r, map2_map2_l; reflexivity.
Qed.

Lemma map3_const_r {A B C D E : Type} (f : A -> B -> C -> D) (g : E -> C)
    (l : list A) (m : list B) (n : list E) :
  length n = length l ->
  map3 f l m (map g n) = map3 (fun a b e => f a b (g e)) l m n.
Proof.
  revert m n; induction l as [|a l IH]; intros [|b m] [|c n]; simpl; intros H; try easy.
  f_equal; apply IH; lia.
Qed.

Lemma map3_same_l {A B D : Type} (f : A -> B -> A -> D) (l : list A) (m : list B) :
  map3 f l m l = map2 (fun a b => f a b a) l m.
Proof.
  revert m; induction l as [|a l IH]; intros [|b m]; simpl; try easy.
  f_equal; apply IH.
Qed.

(** With a zero batch in the third place, an elementwise operation of three
    batches is one of two. *)
Lemma tmap3_zeros (F : R -> R -> R -> R) (x y : tensor) :
  map3 (map3 F) x y (zeros_like x) = map2 (map2 (fun a b => F a b 0%R)) x y.
Proof.
  unfold zeros_like.
  rewrite map3_const_r by reflexivity. rewrite map3_same_l.
  apply map2_ext; intros r r'.
  rewrite map3_const_r by reflexivity. apply map3_same_l.
Qed.

Lemma list_sum_repeat (k n : nat) : list_sum (repeat k n) = (n * k)%nat.
Proof. induction n as [|n IH]; simpl; [reflexivity|now rewrite IH]. Qed.

Lemma draw_rows_shape (f : nat -> R) (pos : nat) (lens : list nat) :
  shape (draw_rows f pos lens) = lens.
Proof.
  revert pos; induction lens as [|l lens IH]; intros pos; simpl; [reflexivity|].
  unfold shape in *; simpl. now rewrite IH, length_map, length_seq.
Qed.

Lemma randn_shape (n : nat) (size : list nat) (g : RNG) :
  shape (fst (randn n size g)) = repeat (numel size) n.
Proof. apply draw_rows_shape. Qed.

Lemma randn_cursor (n : nat) (size : list nat) (g : RNG) :
  cursor (snd (randn n size g)) = (cursor g + n * numel size)%nat.
Proof. unfold randn, randn_rows; simpl. now rewrite list_sum_repeat. Qed.


(** ** The update of [sample] *)

Lemma sample_update_some (G : Globals) (s : Schedule) (i : Z) (x eps zt : tensor) :
  schedule_cell G = Ok s -> 0 <= i <= T G ->
  shape eps = shape x -> shape zt = shape x ->
  sample_update s i x eps (Some zt) =
  Ok (map3 (map3 (ddpm_step (entry (alpha_t s) i) (entry (alphabar_t s) i)
                            (sqrt (entry (beta_t s) i)))) x eps zt).
Proof.
  intros Hs Hi He Hz.
  assert (Hn : (Z.to_nat i < steps G)%nat) by (unfold steps; lia).
  unfold sample_update.
  rewrite index_in by (rewrite (oneover_sqrta_length G s Hs); unfold steps; lia).
  rewrite index_in by (rewrite (mab_over_sqrtmab_inv_length G s Hs); unfold steps; lia).
  rewrite index_in by (rewrite (sigma_t_length G s Hs); unfold steps; lia).
  simpl rbind. unfold tsub, tadd, tscale, tscale_r.
  rewrite tbinop_ok by (now rewrite shape_map). simpl rbind.
  rewrite tmap2_map_r, tmap_map2.
  rewrite tbinop_ok by (rewrite shape_map, shape_map2; congruence).
  rewrite tmap2_map2_map. f_equal.
  rewrite (oneover_sqrta_nth G s Hs _ Hn), (mab_over_sqrtmab_inv_nth G s Hs _ Hn),
    (sigma_t_nth G s Hs _ Hn).
  reflexivity.
Qed.

Lemma sample_update_none (G : Globals) (s : Schedule) (i : Z) (x eps : tensor) :
  schedule_cell G = Ok s -> 0 <= i <= T G ->
  shape eps = shape x ->
  sample_update s i x eps None =
  Ok (map3 (map3 (ddpm_step (entry (alpha_t s) i) (entry (alphabar_t s) i)
                            (sqrt (entry (beta_t s) i)))) x eps (zeros_like x)).
Proof.
  intros Hs Hi He.
  assert (Hn : (Z.to_nat i < steps G)%nat) by (unfold steps; lia).
  unfold sample_update.
  rewrite index_in by (rewrite (oneover_sqrta_length G s Hs); unfold steps; lia).
  rewrite index_in by (rewrite (mab_over_sqrtmab_inv_length G s Hs); unfold steps; lia).
  rewrite index_in by (rewrite (sigma_t_length G s Hs); unfold steps; lia).
  simpl rbind. unfold tsub, tadd_scalar, tscale, tscale_r.
  rewrite tbinop_ok by (now rewrite shape_map). simpl rbind.
  rewrite tmap2_map_r, !tmap_map2, tmap3_zeros. f_equal.
  rewrite (oneover_sqrta_nth G s Hs _ Hn), (mab_over_sqrtmab_inv_nth G s Hs _ Hn),
    (sigma_t_nth G s Hs _ Hn).
  reflexivity.
Qed.

(** ** One iteration of [sample] *)

Lemma sample_body_run (s : Schedule) (net : Net) (n : nat) (size : list nat)
    (i : Z) (x : tensor) (g : RNG) :
  sample_body s net n size i x g =
  ([EvIter i; EvNet x (arange_n n)],
   match net x (arange_n n) with
   | Ok eps =>
       match sample_update s i x eps (fst (drawn_z n size i g)) with
       | Ok x' => Ok (x', snd (drawn_z n size i g))
       | Err e => Err e
       end
   | Err e => Err e
   end).
Proof.
  unfold sample_body, drawn_z, bind, tell, call_net, lift, draw, ret.
  destruct (1 <? i); simpl;
    destruct (net x (arange_n n)) as [eps|e]; simpl; try reflexivity;
    match goal with |- context [sample_update ?a ?b ?c ?d ?z] =>
      destruct (sample_update a b c d z) end; reflexivity.
Qed.

Lemma one_hot_ok (c : list Z) (k : nat) :
  Forall (fun v => 0 <= v < Z.of_nat k) c -> one_hot c k = Ok (map (one_hot_row k) c).
Proof.
  intros H; unfold one_hot.
  replace (forallb _ c) with true; [reflexivity|].
  symmetry; apply forallb_forall; intros v Hv.
  rewrite Forall_forall in H. specialize (H v Hv).
  apply andb_true_iff; split; [apply Z.leb_le|apply Z.ltb_lt]; lia.
Qed.

(** [F.one_hot] rejects a condition with a class value out of range. *)
Lemma one_hot_rejects (c : list Z) (k : nat) (v : Z) :
  In v c -> v < 0 \/ Z.of_nat k <= v -> one_hot c k = Err OneHotClass.
Proof.
  intros Hin Hv; unfold one_hot.
  destruct (forallb _ c) eqn:Hf; [|reflexivity].
  rewrite forallb_forall in Hf. specialize (Hf v Hin).
  apply andb_true_iff in Hf as [H1 H2].
  apply Z.leb_le in H1; apply Z.ltb_lt in H2; lia.
Qed.

Lemma arange_n_in (n : nat) (v : Z) : In v (arange_n n) <-> 0 <= v < Z.of_nat n.
Proof.
  unfold arange_n; rewrite in_map_iff; split.
  - intros (k & <- & Hk); apply in_seq in Hk; lia.
  - intros Hv; exists (Z.to_nat v); split; [lia|apply in_seq; lia].
Qed.

Lemma one_hot_arange_n (n : nat) :
  one_hot (arange_n n) 10 =
  if (n <=? 10)%nat then Ok (map (one_hot_row 10) (arange_n n)) else Err OneHotClass.
Proof.
  destruct (Nat.leb_spec n 10).
  - apply one_hot_ok, Forall_forall; intros v Hv; apply arange_n_in in Hv; lia.
  - apply (one_hot_rejects _ _ 10); [apply arange_n_in|]; lia.
Qed.

(** [UNet.forward] raises whenever [F.one_hot] rejects the condition: the
    blocks before it may raise first, nothing after it is reached. *)
Lemma UNet_forward_rejects (u : UNet) (x : tensor) (c : list Z) :
  one_hot c 10 = Err OneHotClass ->
  exists e, UNet_forward u x c = Err e /\
    (forall c1 c2 c3 c4,
       dconv_down1 u x = Ok c1 -> dconv_down2 u c1 = Ok c2 ->
       dconv_down3 u c2 = Ok c3 -> dconv_down4 u c3 = Ok c4 -> e = OneHotClass).
Proof.
  intros Hc; unfold UNet_forward.
  destruct (dconv_down1 u x) as [c1|e1] eqn:H1; simpl;
    [|exists e1; split; [reflexivity|intros; congruence]].
  destruct (dconv_down2 u c1) as [c2|e2] eqn:H2; simpl;
    [|exists e2; split; [reflexivity|intros; congruence]].
  destruct (dconv_down3 u c2) as [c3|e3] eqn:H3; simpl;
    [|exists e3; split; [reflexivity|intros; congruence]].
  destruct (dconv_down4 u c3) as [c4|e4] eqn:H4; simpl;
    [|exists e4; split; [reflexivity|intros; congruence]].
  rewrite Hc; simpl. exists OneHotClass; split; reflexivity.
Qed.

Lemma UNet_forward_ok_condition (u : UNet) (x : tensor) (c : list Z) (y : tensor) :
  UNet_forward u x c = Ok y -> Forall (fun v => 0 <= v < 10) c.
Proof.
  intros H. apply Forall_forall; intros v Hv.
  destruct (Z_lt_dec v 0) as [Hneg|Hneg];
    [|destruct (Z_le_dec 10 v) as [Hbig|Hbig]; [|lia]].
  - destruct (UNet_forward_rejects u x c (one_hot_rejects c 10 v Hv (or_introl Hneg)))
      as (e & He & _). congruence.
  - destruct (UNet_forward_rejects u x c (one_hot_rejects c 10 v Hv (or_intror Hbig)))
      as (e & He & _). congruence.
Qed.

Lemma toy_unet_forward (x : tensor) (c : list Z) :
  Forall (fun v => 0 <= v < 10) c -> UNet_forward toy_unet x c = Ok x.
Proof.
  intros H; unfold UNet_forward, toy_unet, pass_through; simpl.
  rewrite one_hot_ok by exact H. reflexivity.
Qed.

(** ** Runs of [sample] *)

Lemma bind_draw {A B : Type} (d : RNG -> A * RNG) (f : A -> M B) (g : RNG) :
  bind (draw d) f g = f (fst (d g)) (snd (d g)).
Proof.
  unfold bind, draw. destruct (d g) as [a g']; simpl.
  destruct (f a g') as [l r]; reflexivity.
Qed.

Lemma for_each_cons {A : Type} (body : Z -> A -> M A) (i : Z) (rest : list Z)
    (a : A) (g : RNG) :
  for_each body (i :: rest) a g =
  match body i a g with
  | (l, Ok (a', g')) => (l ++ fst (for_each body rest a' g'), snd (for_each body rest a' g'))
  | (l, Err e) => (l, Err e)
  end.
Proof.
  simpl; unfold bind. destruct (body i a g) as [l [[a' g']|e]]; [|reflexivity].
  destruct (for_each body rest a' g'); reflexivity.
Qed.

(** When the first call of the denoiser raises, [sample] ends there with
    that exception. *)
Lemma DDPM_sample_first_call (G : Globals) (s : Schedule) (net : Net)
    (n : nat) (size : list nat) (g : RNG) (e : error) :
  1 <= T G ->
  net (fst (randn n size g)) (arange_n n) = Err e ->
  DDPM_sample G s net n size g =
  ([EvIter (T G); EvNet (fst (randn n size g)) (arange_n n)], Err e).
Proof.
  intros HT He. unfold DDPM_sample.
  rewrite bind_draw, (py_range_countdown_cons _ HT), for_each_cons.
  rewrite sample_body_run, He. reflexivity.
Qed.

(** C10.  With the notebook's denoiser ([UNet.forward], which one-hot encodes
    the condition with 10 classes) and [T >= 1]: a call [sample(n_sample, size)]
    with [n_sample > 10] raises in its first denoiser call, on the initial
    noise, because [arange(n_sample)] holds the class value 10; so a call
    that returns has [n_sample <= 10]. *)
Theorem sample_fails_beyond_ten_classes (G : Globals) (s : Schedule) (u : UNet)
    (n : nat) (size : list nat) (g : RNG) :
  1 <= T G ->
  ((10 < n)%nat ->
     In 10 (arange_n n) /\
     one_hot (arange_n n) 10 = Err OneHotClass /\
     exists e,
       UNet_forward u (fst (randn n size g)) (arange_n n) = Err e /\
       DDPM_sample G s (UNet_forward u) n size g =
         ([EvIter (T G); EvNet (fst (randn n size g)) (arange_n n)], Err e) /\
       (forall c1 c2 c3 c4,
          dconv_down1 u (fst (randn n size g)) = Ok c1 -> dconv_down2 u c1 = Ok c2 ->
          dconv_down3 u c2 = Ok c3 -> dconv_down4 u c3 = Ok c4 -> e = OneHotClass)) /\
  (forall r, snd (DDPM_sample G s (UNet_forward u) n size g) = Ok r -> (n <= 10)%nat).
Proof.
  intros HT.
  assert (Hbig : (10 < n)%nat ->
            one_hot (arange_n n) 10 = Err OneHotClass).
  { intros Hn. rewrite one_hot_arange_n. destruct (Nat.leb_spec n 10); [lia|reflexivity]. }
  split.
  - intros Hn. split; [apply arange_n_in; lia|]. split; [auto|].
    destruct (UNet_forward_rejects u (fst (randn n size g)) (arange_n n) (Hbig Hn))
      as (e & He & Hwhy).
    exists e; split; [exact He|]. split; [|exact Hwhy].
    now apply DDPM_sample_first_call.
  - intros r Hr. destruct (Nat.leb_spec n 10) as [|Hn]; [assumption|exfalso].
    destruct (UNet_forward_rejects u (fst (randn n size g)) (arange_n n) (Hbig Hn))
      as (e & He & _).
    rewrite (DDPM_sample_first_call G s _ n size g e HT He) in Hr. discriminate.
Qed.

Lemma sample_fails_beyond_ten_classes_witness :
  exists s, schedule_cell (notebook_globals cpu) = Ok s /\
    snd (DDPM_sample (notebook_globals cpu) s (UNet_forward toy_unet) 11 [3; 32; 32]%nat
           zero_rng) = Err OneHotClass.
Proof.
  destruct (schedule_cell_total (notebook_globals cpu)) as [s Hs]; [simpl; lia|].
  exists s; split; [exact Hs|].
  destruct (sample_fails_beyond_ten_classes (notebook_globals cpu) s toy_unet 11
              [3; 32; 32]%nat zero_rng) as [H _]; [simpl; lia|].
  destruct (H ltac:(lia)) as (_ & _ & e & _ & Hrun & Hwhy).
  rewrite Hrun; simpl. f_equal.
  eapply Hwhy; reflexivity.
Defined.

Lemma map3_length {A B C D : Type} (f : A -> B -> C -> D) l m n :
  length l = length m -> length l = length n -> length (map3 f l m n) = length l.
Proof.
  revert m n; induction l as [|a l IH]; intros [|b m] [|c n]; simpl; intros H1 H2;
    try easy.
  f_equal; apply IH; congruence.
Qed.

Lemma shape_map3 (F : R -> R -> R -> R) (x y z : tensor) :
  shape y = shape x -> shape z = shape x -> shape (map3 (map3 F) x y z) = shape x.
Proof.
  unfold shape; revert y z; induction x as [|r x IH]; intros [|r' y] [|r'' z]; simpl;
    intros H1 H2; try easy.
  injection H1 as Hr1 Hx1; injection H2 as Hr2 Hx2.
  rewrite (IH y z Hx1 Hx2), map3_length; auto.
Qed.

Lemma iterations_app (l1 l2 : list Event) :
  iterations (l1 ++ l2) = iterations l1 ++ iterations l2.
Proof. apply flat_map_app. Qed.

Lemma net_calls_app (l1 l2 : list Event) :
  net_calls (l1 ++ l2) = net_calls l1 ++ net_calls l2.
Proof. apply flat_map_app. Qed.

Lemma iterations_body (i : Z) (x : tensor) (c : list Z) (l : list Event) :
  iterations (EvIter i :: EvNet x c :: l) = i :: iterations l.
Proof. reflexivity. Qed.

Lemma net_calls_body (i : Z) (x : tensor) (c : list Z) (l : list Event) :
  net_calls (EvIter i :: EvNet x c :: l) = (x, c) :: net_calls l.
Proof. reflexivity. Qed.

Lemma countdown_length (n : Z) : length (countdown n) = Z.to_nat n.
Proof. unfold countdown; now rewrite length_map, length_seq. Qed.

Lemma countdown_nth (n : Z) (k : nat) :
  (k < Z.to_nat n)%nat -> nth k (countdown n) 0 = n - Z.of_nat k.
Proof.
  intros H; unfold countdown.
  rewrite (nth_map_in _ _ _ 0%nat) by now rewrite length_seq.
  now rewrite nth_seq_in.
Qed.

Lemma countdown_range (n i : Z) : In i (countdown n) -> 1 <= i <= n.
Proof.
  unfold countdown; rewrite in_map_iff. intros (k & <- & Hk). apply in_seq in Hk; lia.
Qed.

Lemma countdown_cons (n : Z) : 1 <= n -> countdown n = n :: countdown (n - 1).
Proof.
  intros Hn. unfold countdown. rewrite <- !py_range_countdown.
  now apply py_range_countdown_cons.
Qed.

Section SampleRuns.

Variables (G : Globals) (s : Schedule) (net : Net) (n : nat) (size : list nat).

Let body := sample_body s net n size.

(** What the log of the loop shows, whatever the outcome. *)
Lemma for_each_sample_log (idxs : list Z) (x : tensor) (g : RNG)
    (l : list Event) (r : result (tensor * RNG)) :
  for_each body idxs x g = (l, r) ->
  Forall (fun call => snd call = arange_n n) (net_calls l) /\
  (forall v, r = Ok v ->
     iterations l = idxs /\ length (net_calls l) = length idxs) /\
  (forall e, r = Err e ->
     exists k, (k < length idxs)%nat /\
       iterations l = firstn (S k) idxs /\
       length (net_calls l) = S k).
Proof.
  revert x g l r; induction idxs as [|i rest IH]; intros x g l r Hrun.
  - simpl in Hrun. injection Hrun as <- <-.
    repeat split; try constructor; intros; discriminate.
  - rewrite for_each_cons in Hrun. unfold body in Hrun at 1.
    rewrite sample_body_run in Hrun.
    destruct (net x (arange_n n)) as [eps|e].
    2:{ injection Hrun as <- <-. simpl. repeat split; try (intros; discriminate).
        - repeat constructor.
        - intros e' _. exists 0%nat; simpl; repeat split; lia. }
    destruct (sample_update s i x eps (fst (drawn_z n size i g))) as [x'|e].
    2:{ injection Hrun as <- <-. simpl. repeat split; try (intros; discriminate).
        - repeat constructor.
        - intros e' _. exists 0%nat; simpl; repeat split; lia. }
    injection Hrun as <- <-.
    destruct (IH x' (snd (drawn_z n size i g)) _ _ (surjective_pairing _))
      as (Hc & Hok & Herr).
    cbn [app]. rewrite iterations_body, net_calls_body.
    split; [|split].
    + constructor; [reflexivity|exact Hc].
    + intros v Hv. destruct (Hok v Hv) as [H1 H2]. simpl. now rewrite H1, H2.
    + intros e He. destruct (Herr e He) as (k & Hk & H1 & H2).
      exists (S k). simpl in *. rewrite H1, H2. repeat split; lia.
Qed.

Hypothesis Hs : schedule_cell G = Ok s.

Lemma sample_body_ok (i : Z) (x : tensor) (g : RNG) :
  net_accepts net n size -> 1 <= i <= T G -> shape x = repeat (numel size) n ->
  exists x' g', snd (body i x g) = Ok (x', g') /\ shape x' = shape x.
Proof.
  intros Hnet Hi Hx. destruct (Hnet x Hx) as (eps & He & Hse).
  unfold body; rewrite sample_body_run, He. unfold drawn_z.
  destruct (1 <? i); cbn [fst snd].
  - rewrite (sample_update_some G) by
      (auto; try lia; rewrite randn_shape; congruence).
    eexists _, _; split; [reflexivity|].
    apply shape_map3; [exact Hse|rewrite randn_shape; congruence].
  - rewrite (sample_update_none G) by (auto; lia).
    eexists _, _; split; [reflexivity|].
    apply shape_map3; [exact Hse|apply shape_zeros_like].
Qed.

Lemma for_each_sample_ok (idxs : list Z) (x : tensor) (g : RNG) :
  net_accepts net n size -> Forall (fun i => 1 <= i <= T G) idxs ->
  shape x = repeat (numel size) n ->
  exists x' g', snd (for_each body idxs x g) = Ok (x', g') /\ shape x' = shape x.
Proof.
  intros Hnet Hidx; revert x g.
  induction Hidx as [|i rest Hi _ IH]; intros x g Hx.
  - simpl; eauto.
  - rewrite for_each_cons.
    destruct (sample_body_ok i x g Hnet Hi Hx) as (x1 & g1 & H1 & Hx1).
    destruct (body i x g) as [l r]; simpl in H1; subst r.
    destruct (IH x1 g1 ltac:(congruence)) as (x' & g' & H' & Hx').
    exists x', g'; cbn [snd]; split; [exact H'|congruence].
Qed.

Lemma DDPM_sample_loop (g : RNG) :
  DDPM_sample G s net n size g =
  for_each body (countdown (T G)) (fst (randn n size g)) (snd (randn n size g)).
Proof.
  unfold DDPM_sample. now rewrite bind_draw, py_range_countdown.
Qed.

End SampleRuns.

(** ** Claims about the sampling loop *)

Lemma toy_unet_accepts (n : nat) (size : list nat) :
  (n <= 10)%nat -> net_accepts (UNet_forward toy_unet) n size.
Proof.
  intros Hn x _. exists x; split; [|reflexivity].
  apply toy_unet_forward, Forall_forall; intros v Hv. apply arange_n_in in Hv; lia.
Qed.

(** C9, as stated, fails: [sample(11, (3, 32, 32))] with the notebook's
    configuration enters iteration 400 only and ends there with the exception
    of [F.one_hot]; it does not run 400 iterations. *)
Lemma sample_of_eleven_stops_at_first_iteration :
  exists s, schedule_cell (notebook_globals cpu) = Ok s /\
    let out := DDPM_sample (notebook_globals cpu) s (UNet_forward toy_unet) 11
                 [3; 32; 32]%nat zero_rng in
    snd out = Err OneHotClass /\
    iterations (fst out) = [400] /\
    iterations (fst out) <> countdown 400.
Proof.
  destruct (schedule_cell_total (notebook_globals cpu)) as [s Hs]; [simpl; lia|].
  exists s; split; [exact Hs|]. cbv zeta.
  rewrite (DDPM_sample_first_call (notebook_globals cpu) s _ 11 _ zero_rng OneHotClass).
  - cbn [fst snd]. rewrite iterations_body. cbn [iterations flat_map T notebook_globals].
    repeat split.
    intros H. apply (f_equal (@length Z)) in H.
    rewrite countdown_length in H. simpl in H. lia.
  - simpl; lia.
  - destruct (UNet_forward_rejects toy_unet (fst (randn 11 [3; 32; 32]%nat zero_rng))
                (arange_n 11)) as (e & He & Hwhy).
    + rewrite one_hot_arange_n; reflexivity.
    + rewrite He; f_equal. eapply Hwhy; reflexivity.
Qed.

(** C9, amended.  The loop of [sample] enters the indices T, T-1, ..., 1 in
    this order and nothing else: a run that returns has entered all T of them
    and called the denoiser T times; a run in which a call or an update
    raises has entered an initial part of them and ends there.  It returns
    whenever the denoiser accepts the sampled shape.  The transition of index
    [i] is determined by the current batch, the schedule entries at [i] and
    the test [i > 1]: two indices on the same side of the test and with equal
    entries make the same transition. *)
Theorem sample_countdown (G : Globals) (s : Schedule) (net : Net)
    (n : nat) (size : list nat) (g : RNG) :
  schedule_cell G = Ok s ->
  let out := DDPM_sample G s net n size g in
  (net_accepts net n size ->
     exists x_final g', snd out = Ok (x_final, g') /\
       shape x_final = repeat (numel size) n) /\
  (forall v, snd out = Ok v ->
     iterations (fst out) = countdown (T G) /\
     length (net_calls (fst out)) = Z.to_nat (T G)) /\
  (forall e, snd out = Err e ->
     exists k, (k < Z.to_nat (T G))%nat /\
       iterations (fst out) = firstn (S k) (countdown (T G)) /\
       length (net_calls (fst out)) = S k) /\
  (length (countdown (T G)) = Z.to_nat (T G) /\
   forall k, (k < Z.to_nat (T G))%nat -> nth k (countdown (T G)) 0 = T G - Z.of_nat k) /\
  (forall s' i j x g0,
     (1 <? j) = (1 <? i) ->
     index (oneover_sqrta s') j = index (oneover_sqrta s) i ->
     index (mab_over_sqrtmab_inv s') j = index (mab_over_sqrtmab_inv s) i ->
     index (sigma_t s') j = index (sigma_t s) i ->
     snd (sample_body s' net n size j x g0) = snd (sample_body s net n size i x g0)).
Proof.
  intros Hs out. unfold out; clear out.
  rewrite DDPM_sample_loop.
  set (x0 := fst (randn n size g)); set (g0 := snd (randn n size g)).
  pose proof (for_each_sample_log s net n size (countdown (T G)) x0 g0 _ _
                (surjective_pairing _)) as (_ & Hok & Herr).
  rewrite countdown_length in Hok, Herr.
  split; [|split; [exact Hok|split; [exact Herr|split; [split|]]]].
  - intros Hnet.
    destruct (for_each_sample_ok G s net n size Hs (countdown (T G)) x0 g0 Hnet)
      as (x' & g' & H' & Hx').
    + apply Forall_forall; intros i Hi; now apply countdown_range.
    + apply randn_shape.
    + exists x', g'; split; [exact H'|]. rewrite Hx'. apply randn_shape.
  - apply countdown_length.
  - apply countdown_nth.
  - intros s' i j x g1 Hb H1 H2 H3.
    rewrite !sample_body_run. unfold sample_update, drawn_z.
    now rewrite Hb, H1, H2, H3.
Qed.

Lemma sample_countdown_witness :
  exists s, schedule_cell (notebook_globals cpu) = Ok s /\
    let out := DDPM_sample (notebook_globals cpu) s (UNet_forward toy_unet) 10
                 [3; 32; 32]%nat zero_rng in
    exists x_final g', snd out = Ok (x_final, g') /\
      iterations (fst out) = countdown 400.
Proof.
  destruct (schedule_cell_total (notebook_globals cpu)) as [s Hs]; [simpl; lia|].
  exists s; split; [exact Hs|].
  destruct (sample_countdown (notebook_globals cpu) s (UNet_forward toy_unet) 10
              [3; 32; 32]%nat zero_rng Hs) as (Hrun & Hok & _).
  destruct (Hrun (toy_unet_accepts 10 _ (le_n 10))) as (x' & g' & H' & _).
  exists x', g'; split; [exact H'|]. apply (Hok _ H').
Defined.

(** ** The forward corruption *)

Lemma map3_ext_in {A B C D : Type} (f g : A -> B -> C -> D) l m n :
  (forall a, In a l -> forall b c, f a b c = g a b c) -> map3 f l m n = map3 g l m n.
Proof.
  revert m n; induction l as [|a l IH]; intros [|b m] [|c n] H; simpl; try easy.
  rewrite (H a (or_introl eq_refl)), IH; [reflexivity|].
  intros a' Ha'; apply H; now right.
Qed.

Lemma map2_map2_same {A B C D E F : Type} (k : D -> E -> F) (p : A -> B -> D)
    (q : A -> C -> E) (l : list A) (m : list B) (n : list C) :
  map2 k (map2 p l m) (map2 q l n) = map3 (fun a b c => k (p a b) (q a c)) l m n.
Proof.
  revert m n; induction l as [|a l IH]; intros [|b m] [|c n]; simpl; try easy.
  f_equal; apply IH.
Qed.

Lemma bscale_ok (coef : list R) (x : tensor) :
  length coef = length x ->
  bscale coef x = Ok (map2 (fun a row => map (fun v => (a * v)%R) row) coef x) /\
  shape (map2 (fun a row => map (fun v => (a * v)%R) row) coef x) = shape x.
Proof.
  intros H; unfold bscale. rewrite H, Nat.eqb_refl. split; [reflexivity|].
  unfold shape. revert x H; induction coef as [|a coef IH]; intros [|r x]; simpl;
    intros H; try easy.
  rewrite length_map, IH; [reflexivity|lia].
Qed.

Lemma forward_x_t_value (G : Globals) (s : Schedule) (ts : list Z) (x eps : tensor) :
  schedule_cell G = Ok s ->
  length ts = length x ->
  Forall (fun t => 0 <= t <= T G) ts ->
  shape eps = shape x ->
  forward_x_t s ts x eps = Ok (map3 (corrupt_row s) ts x eps).
Proof.
  intros Hs Hlen Hts Hshape.
  assert (Hin : forall seq_t : list R, length seq_t = steps G ->
            Forall (fun t => 0 <= t < Z.of_nat (length seq_t)) ts).
  { intros seq_t Hl. eapply Forall_impl; [|exact Hts].
    simpl; intros t Ht. rewrite Hl; unfold steps; lia. }
  unfold forward_x_t.
  rewrite (index_many_in _ _ (Hin _ (sqrtab_length G s Hs))); simpl rbind.
  destruct (bscale_ok (map (fun i => nth (Z.to_nat i) (sqrtab s) 0%R) ts) x) as [-> Hl];
    [now rewrite length_map|]. simpl rbind.
  rewrite (index_many_in _ _ (Hin _ (sqrtmab_length G s Hs))); simpl rbind.
  destruct (bscale_ok (map (fun i => nth (Z.to_nat i) (sqrtmab s) 0%R) ts) eps) as [-> Hr];
    [rewrite length_map, Hlen; symmetry; now apply shape_length|]. simpl rbind.
  unfold tadd. rewrite tbinop_ok by congruence. f_equal.
  rewrite !map2_map_l, map2_map2_same.
  apply map3_ext_in; intros t Ht xr er.
  rewrite map2_map_map. unfold corrupt_row.
  rewrite Forall_forall in Hts. specialize (Hts t Ht).
  assert (Hn : (Z.to_nat t < steps G)%nat) by (unfold steps; lia).
  rewrite (sqrtab_nth G s Hs _ Hn), (sqrtmab_nth G s Hs _ Hn). reflexivity.
Qed.

(** C4.  For timesteps in [1 .. T], one per sample, and noise of the shape of
    [x0], the corruption of [DDPM.forward] is, in each sample,
    [sqrt(alphabar_t) * x0 + sqrt(1 - alphabar_t) * noise] with the [t] of that
    sample; with zero noise it is [sqrt(alphabar_t) * x0]. *)
Theorem forward_corruption (G : Globals) (s : Schedule) (ts : list Z) (x0 noise : tensor) :
  schedule_cell G = Ok s ->
  length ts = length x0 ->
  Forall (fun t => 1 <= t <= T G) ts ->
  shape noise = shape x0 ->
  forward_x_t s ts x0 noise =
    Ok (map3 (fun t =>
                map2 (fun xv nv =>
                        (sqrt (entry (alphabar_t s) t) * xv
                         + sqrt (1 - entry (alphabar_t s) t) * nv)%R))
             ts x0 noise) /\
  forward_x_t s ts x0 (zeros_like x0) =
    Ok (map2 (fun t => map (fun xv => (sqrt (entry (alphabar_t s) t) * xv)%R)) ts x0).
Proof.
  intros Hs Hlen Hts Hshape.
  assert (Hts0 : Forall (fun t => 0 <= t <= T G) ts)
    by (eapply Forall_impl; [|exact Hts]; simpl; intros; lia).
  split.
  - now rewrite (forward_x_t_value G).
  - rewrite (forward_x_t_value G) by (auto; apply shape_zeros_like). f_equal.
    unfold zeros_like. rewrite map3_const_r by now rewrite Hlen.
    clear. revert x0; induction ts as [|t ts IH]; intros [|xr x0]; simpl; try easy.
    rewrite IH. f_equal. unfold corrupt_row.
    rewrite map2_map_r_same. apply map_ext; intros xv; ring.
Qed.

Lemma forward_corruption_witness :
  exists s, schedule_cell (notebook_globals cpu) = Ok s /\
    forward_x_t s [1; 400] [[1; 2]; [3; 4]]%R (zeros_like [[1; 2]; [3; 4]]%R) =
    Ok (map2 (fun t => map (fun xv => (sqrt (entry (alphabar_t s) t) * xv)%R))
             [1; 400] [[1; 2]; [3; 4]]%R).
Proof.
  destruct (schedule_cell_total (notebook_globals cpu)) as [s Hs]; [simpl; lia|].
  exists s; split; [exact Hs|].
  apply (forward_corruption (notebook_globals cpu) s [1; 400] [[1; 2]; [3; 4]]%R
           (zeros_like [[1; 2]; [3; 4]]%R) Hs).
  - reflexivity.
  - repeat constructor; simpl; lia.
  - reflexivity.
Defined.





(** ** The update at every step of [sample] *)

Lemma shape_eqb_eq (x y : tensor) : shape_eqb x y = true -> shape x = shape y.
Proof.
  unfold shape_eqb.
  destruct (list_eq_dec Nat.eq_dec (shape x) (shape y)); [auto|discriminate].
Qed.

Lemma tbinop_inv (f : R -> R -> R) (x y r : tensor) :
  tbinop f x y = Ok r -> shape x = shape y /\ r = map2 (map2 f) x y.
Proof.
  unfold tbinop. destruct (shape_eqb x y) eqn:H; [|discriminate].
  intros [= <-]. split; [now apply shape_eqb_eq|reflexivity].
Qed.

(** An update that succeeds had operands of one shape. *)
Lemma sample_update_shapes (G : Globals) (s : Schedule) (i : Z) (x eps x' : tensor)
    (z : option tensor) :
  schedule_cell G = Ok s -> 0 <= i <= T G ->
  sample_update s i x eps z = Ok x' ->
  shape eps = shape x /\ forall zt, z = Some zt -> shape zt = shape x.
Proof.
  intros Hs Hi Hu. unfold sample_update in Hu.
  rewrite index_in in Hu by (rewrite (oneover_sqrta_length G s Hs); unfold steps; lia).
  rewrite index_in in Hu by (rewrite (mab_over_sqrtmab_inv_length G s Hs); unfold steps; lia).
  rewrite index_in in Hu by (rewrite (sigma_t_length G s Hs); unfold steps; lia).
  simpl rbind in Hu. unfold tsub in Hu.
  destruct (tbinop Rminus x _) as [d|e] eqn:Hd; [|discriminate].
  apply tbinop_inv in Hd as [Hd ->]. unfold tscale_r in Hd. rewrite shape_map in Hd.
  split; [congruence|].
  intros zt ->. simpl rbind in Hu. unfold tadd in Hu.
  apply tbinop_inv in Hu as [Hu _]. unfold tscale in Hu.
  rewrite !shape_map, shape_map2 in Hu by (unfold tscale_r; now rewrite shape_map).
  congruence.
Qed.

(** An update that succeeds is the step of the reverse process. *)
Lemma sample_update_inv (G : Globals) (s : Schedule) (i : Z) (x eps x' : tensor)
    (z : option tensor) :
  schedule_cell G = Ok s -> 0 <= i <= T G ->
  sample_update s i x eps z = Ok x' ->
  x' = map3 (map3 (ddpm_step (entry (alpha_t s) i) (entry (alphabar_t s) i)
                             (entry (sigma_t s) i))) x eps
         (match z with Some zt => zt | None => zeros_like x end).
Proof.
  intros Hs Hi Hu.
  assert (Hn : (Z.to_nat i < steps G)%nat) by (unfold steps; lia).
  assert (Hsig : entry (sigma_t s) i = sqrt (entry (beta_t s) i))
    by apply (sigma_t_nth G s Hs _ Hn).
  destruct (sample_update_shapes G s i x eps x' z Hs Hi Hu) as [He Hz].
  rewrite Hsig. destruct z as [zt|].
  - rewrite (sample_update_some G s i x eps zt Hs Hi He (Hz zt eq_refl)) in Hu.
    now injection Hu as <-.
  - rewrite (sample_update_none G s i x eps Hs Hi He) in Hu.
    now injection Hu as <-.
Qed.

Lemma countdown_to_nat (n : Z) : countdown n = countdown (Z.of_nat (Z.to_nat n)).
Proof.
  destruct (Z.le_gt_cases 0 n) as [H|H]; [now rewrite Z2Nat.id|].
  unfold countdown. rewrite Nat2Z.id.
  replace (Z.to_nat n) with 0%nat by lia. reflexivity.
Qed.

(** A loop of [sample] that returns went through the steps of the reverse
    process, each from the state the previous one left. *)
Lemma for_each_sample_steps (G : Globals) (s : Schedule) (net : Net)
    (n : nat) (size : list nat) (k : nat) :
  schedule_cell G = Ok s -> Z.of_nat k <= T G ->
  forall x g log x_final g_final,
    for_each (sample_body s net n size) (countdown (Z.of_nat k)) x g =
      (log, Ok (x_final, g_final)) ->
    reverse_steps s net n size (Z.of_nat k) x g log x_final g_final.
Proof.
  intros Hs. induction k as [|k IH]; intros Hk x g log x_final g_final Hrun.
  - cbn in Hrun. injection Hrun as <- <- <-. constructor.
  - remember (Z.of_nat (S k)) as i eqn:Ei.
    assert (Ek : i - 1 = Z.of_nat k) by lia.
    rewrite countdown_cons, Ek in Hrun by lia.
    rewrite for_each_cons, sample_body_run in Hrun.
    destruct (net x (arange_n n)) as [eps|e] eqn:Hnet; [|discriminate].
    destruct (sample_update s i x eps _) as [x1|e] eqn:Hu; [|discriminate].
    destruct (for_each _ _ x1 _) as [l r] eqn:Hrest. cbn [fst snd app] in Hrun.
    injection Hrun as <- ->.
    apply IH in Hrest; [|lia].
    apply (sample_update_inv G) in Hu; [|exact Hs|lia]. subst x1.
    unfold drawn_z in Hrest. rewrite <- Ek in Hrest.
    destruct (1 <? i) eqn:H1; cbn [fst snd] in Hrest.
    + apply reverse_step with (eps := eps) (z := fst (randn n size g))
                              (g1 := snd (randn n size g)); [lia|exact Hnet| |exact Hrest].
      rewrite H1. apply surjective_pairing.
    + apply reverse_step with (eps := eps) (z := zeros_like x) (g1 := g);
        [lia|exact Hnet| |exact Hrest].
      now rewrite H1.
Qed.

(** C1.  A call of [sample] that returns has gone through the steps
    [T, T-1, ..., 1] of the reverse process, starting from its initial noise:
    at each step [i] the state [x] became, elementwise,
    [(1/sqrt(alpha_i)) * (x - eps * (1 - alpha_i)/sqrt(1 - alphabar_i)) + sigma_i * z]
    with [eps] the denoiser's answer on [x] and [sigma_i = sqrt(beta_i)], and
    the next step started from that state.  For [i > 1], [z] is read from the
    generator at its current position, which then moves past the draw; for
    [i = 1] nothing is drawn and [z] is zero, so that the last state is
    [(1/sqrt(alpha_1)) * (x - eps * (1 - alpha_1)/sqrt(1 - alphabar_1))].
    The call returns whenever the denoiser accepts the sampled shape. *)
Theorem sample_applies_update_at_each_step (G : Globals) (s : Schedule) (net : Net)
    (n : nat) (size : list nat) (g : RNG) :
  schedule_cell G = Ok s ->
  0 <= T G ->
  (forall log x_final g_final,
     DDPM_sample G s net n size g = (log, Ok (x_final, g_final)) ->
     reverse_steps s net n size (T G) (fst (randn n size g)) (snd (randn n size g))
       log x_final g_final) /\
  (net_accepts net n size ->
     exists log x_final g_final,
       DDPM_sample G s net n size g = (log, Ok (x_final, g_final))) /\
  (forall i, 1 <= i <= T G -> entry (sigma_t s) i = sqrt (entry (beta_t s) i)) /\
  (forall g0,
     fst (randn n size g0) =
       draw_rows (normal_tape g0) (cursor g0) (repeat (numel size) n) /\
     cursor (snd (randn n size g0)) = (cursor g0 + n * numel size)%nat /\
     normal_tape (snd (randn n size g0)) = normal_tape g0) /\
  (forall a ab sigma x eps,
     map3 (map3 (ddpm_step a ab sigma)) x eps (zeros_like x) =
     map2 (map2 (fun xv ev =>
                   (1 / sqrt a * (xv - ev * ((1 - a) / sqrt (1 - ab))))%R)) x eps).
Proof.
  intros Hs HT. split; [|split; [|split; [|split]]].
  - intros log x_final g_final Hrun.
    rewrite DDPM_sample_loop, countdown_to_nat in Hrun.
    apply (for_each_sample_steps G) in Hrun; [|exact Hs|lia].
    now rewrite Z2Nat.id in Hrun.
  - intros Hnet. rewrite DDPM_sample_loop.
    destruct (for_each_sample_ok G s net n size Hs (countdown (T G))
                (fst (randn n size g)) (snd (randn n size g)) Hnet)
      as (x' & g' & H' & _).
    + apply Forall_forall; intros i Hi; now apply countdown_range.
    + apply randn_shape.
    + destruct (for_each _ _ _ _) as [l r]. cbn [snd] in H'. subst r. eauto.
  - intros i Hi. apply (sigma_t_nth G s Hs). unfold steps; lia.
  - intros g0. split; [reflexivity|]. split; [apply randn_cursor|reflexivity].
  - intros a ab sigma x eps. rewrite tmap3_zeros.
    apply map2_ext; intros r r'. apply map2_ext; intros xv ev.
    unfold ddpm_step; ring.
Qed.

Lemma sample_applies_update_at_each_step_witness :
  exists s log x_final g_final,
    schedule_cell (notebook_globals cpu) = Ok s /\
    DDPM_sample (notebook_globals cpu) s (UNet_forward toy_unet) 10 [3; 32; 32]%nat
      zero_rng = (log, Ok (x_final, g_final)) /\
    reverse_steps s (UNet_forward toy_unet) 10 [3; 32; 32]%nat 400
      (fst (randn 10 [3; 32; 32]%nat zero_rng)) (snd (randn 10 [3; 32; 32]%nat zero_rng))
      log x_final g_final.
Proof.
  destruct (schedule_cell_total (notebook_globals cpu)) as [s Hs]; [simpl; lia|].
  destruct (sample_applies_update_at_each_step (notebook_globals cpu) s
              (UNet_forward toy_unet) 10 [3; 32; 32]%nat zero_rng Hs)
    as (Hsteps & Hret & _); [simpl; lia|].
  destruct (Hret (toy_unet_accepts 10 _ (le_n 10))) as (log & x_final & g_final & Hrun).
  exists s, log, x_final, g_final. split; [exact Hs|]. split; [exact Hrun|].
  exact (Hsteps _ _ _ Hrun).
Defined.

(** ** What the denoiser is called with *)







(** * Further properties of the diffusion code *)

(** ** [DDPM.sample] at its edges *)

(** X5.  With [T <= 0] the loop of [sample] has no iteration: the call returns
    its initial noise and never calls the denoiser. *)
Theorem sample_without_steps (G : Globals) (s : Schedule) (net : Net)
    (n : nat) (size : list nat) (g : RNG) :
  T G <= 0 ->
  DDPM_sample G s net n size g =
  ([], Ok (fst (randn n size g), snd (randn n size g))).
Proof.
  intros HT. unfold DDPM_sample.
  rewrite bind_draw, (py_range_countdown_nil _ HT). reflexivity.
Qed.

Lemma sample_without_steps_witness :
  exists s,
    schedule_cell {| T := 0; beta1 := 1e-4; beta2 := 0.02; device := cpu |} = Ok s /\
    DDPM_sample {| T := 0; beta1 := 1e-4; beta2 := 0.02; device := cpu |} s
      (UNet_forward toy_unet) 11 [1]%nat zero_rng =
    ([], Ok (fst (randn 11 [1]%nat zero_rng), snd (randn 11 [1]%nat zero_rng))).
Proof.
  destruct (schedule_cell_total {| T := 0; beta1 := 1e-4; beta2 := 0.02; device := cpu |})
    as [s Hs]; [simpl; lia|].
  exists s; split; [exact Hs|].
  apply sample_without_steps. simpl; lia.
Defined.

Lemma index_beyond (t : list R) (i : Z) :
  Z.of_nat (length t) <= i -> index t i = Err IndexError.
Proof.
  intros H; unfold index.
  destruct (Z.ltb_spec i (Z.of_nat (length t))); [lia|]. rewrite andb_false_r.
  destruct (Z.ltb_spec i 0); [lia|]. rewrite andb_false_r. reflexivity.
Qed.

(** X6.  A schedule computed for a smaller [T] than the one [sample] loops over
    (the global [T] raised without re-running the schedule cell): the first
    iteration calls the denoiser and then raises [IndexError] on
    [oneover_sqrta[T]]. *)
Theorem sample_with_stale_schedule (G G' : Globals) (s : Schedule) (net : Net)
    (n : nat) (size : list nat) (g : RNG) (eps : tensor) :
  schedule_cell G' = Ok s ->
  T G' < T G ->
  1 <= T G ->
  net (fst (randn n size g)) (arange_n n) = Ok eps ->
  DDPM_sample G s net n size g =
  ([EvIter (T G); EvNet (fst (randn n size g)) (arange_n n)], Err IndexError).
Proof.
  intros Hs Hlt HT Hnet. unfold DDPM_sample.
  rewrite bind_draw, (py_range_countdown_cons _ HT), for_each_cons.
  rewrite sample_body_run, Hnet. unfold sample_update.
  rewrite index_beyond; [reflexivity|].
  rewrite (oneover_sqrta_length G' s Hs). unfold steps.
  pose proof (schedule_T_lower G' s Hs). lia.
Qed.

Lemma sample_with_stale_schedule_witness :
  exists s, schedule_cell (notebook_globals cpu) = Ok s /\
    snd (DDPM_sample {| T := 1000; beta1 := 1e-4; beta2 := 0.02; device := cpu |} s
           (UNet_forward toy_unet) 2 [3]%nat zero_rng) = Err IndexError.
Proof.
  destruct (schedule_cell_total (notebook_globals cpu)) as [s Hs]; [simpl; lia|].
  exists s; split; [exact Hs|].
  rewrite (sample_with_stale_schedule
             {| T := 1000; beta1 := 1e-4; beta2 := 0.02; device := cpu |}
             (notebook_globals cpu) s (UNet_forward toy_unet) 2 [3]%nat zero_rng
             (fst (randn 2 [3]%nat zero_rng))).
  - reflexivity.
  - exact Hs.
  - simpl; lia.
  - simpl; lia.
  - apply toy_unet_forward. repeat constructor; lia.
Defined.

(** ** The random outcomes [sample] consumes *)

Lemma randn_tapes (n : nat) (size : list nat) (g : RNG) :
  normal_tape (snd (randn n size g)) = normal_tape g /\
  int_tape (snd (randn n size g)) = int_tape g.
Proof. split; reflexivity. Qed.





(** ** [DDPM.forward] at its edges *)

(** X9.  With [T <= 0], [torch.randint(1, T+1, ...)] has an empty range:
    [DDPM.forward] raises before it draws noise or calls the denoiser. *)
Theorem forward_without_steps (G : Globals) (s : Schedule) (net : Net)
    (x : tensor) (c : list Z) (g : RNG) :
  T G <= 0 ->
  DDPM_forward G s net x c g = ([], Err RandintBounds).
Proof.
  intros HT. unfold DDPM_forward, bind, draw_res, randint.
  destruct (Z.leb_spec (T G + 1) 1); [reflexivity|lia].
Qed.

Lemma forward_without_steps_witness :
  exists s,
    schedule_cell {| T := 0; beta1 := 1e-4; beta2 := 0.02; device := cpu |} = Ok s /\
    DDPM_forward {| T := 0; beta1 := 1e-4; beta2 := 0.02; device := cpu |} s
      (UNet_forward toy_unet) [[1; 2]]%R [3] zero_rng = ([], Err RandintBounds).
Proof.
  destruct (schedule_cell_total {| T := 0; beta1 := 1e-4; beta2 := 0.02; device := cpu |})
    as [s Hs]; [simpl; lia|].
  exists s; split; [exact Hs|].
  apply forward_without_steps. simpl; lia.
Defined.

(** * The dataset directory *)

Lemma lookup_app (name : string) (a b : Entries) :
  lookup name (a ++ b) =
  match lookup name a with Some v => Some v | None => lookup name b end.
Proof.
  induction a as [|[n v] a IH]; simpl; [reflexivity|].
  destruct (String.eqb n name); [reflexivity|exact IH].
Qed.

Lemma lookup_absent (name : string) (es : Entries) :
  ~ In name (map fst es) -> lookup name es = None.
Proof.
  induction es as [|[n v] es IH]; simpl; intros H; [reflexivity|].
  destruct (String.eqb_spec n name) as [->|Hne]; [tauto|]. apply IH; tauto.
Qed.

Lemma lookup_present (name : string) (es : Entries) (v : Node) :
  lookup name es = Some v -> In name (map fst es).
Proof.
  induction es as [|[n w] es IH]; simpl; [discriminate|].
  destruct (String.eqb_spec n name) as [->|Hne]; [auto|]. intros H; right; auto.
Qed.

Lemma lookup_entry (es : Entries) (n : string) (v : Node) :
  NoDup (map fst es) -> In (n, v) es -> lookup n es = Some v.
Proof.
  induction es as [|[m w] es IH]; simpl; intros Hnd Hin; [contradiction|].
  inversion Hnd as [|? ? Hm Hnd']; subst.
  destruct Hin as [[= -> ->]|Hin].
  - now rewrite String.eqb_refl.
  - destruct (String.eqb_spec m n) as [->|Hne]; [|auto].
    exfalso. apply Hm. apply (in_map fst) in Hin. exact Hin.
Qed.

Lemma remove_entry_absent (name : string) (es : Entries) :
  ~ In name (map fst es) -> remove_entry name es = es.
Proof.
  unfold remove_entry. induction es as [|[n v] es IH]; simpl; intros H; [reflexivity|].
  destruct (String.eqb_spec n name) as [->|Hne]; [tauto|]. simpl. f_equal. apply IH; tauto.
Qed.

Lemma update_entry_absent (name : string) (v : Node) (es : Entries) :
  ~ In name (map fst es) -> update_entry name v es = es.
Proof.
  unfold update_entry. induction es as [|[n w] es IH]; simpl; intros H; [reflexivity|].
  destruct (String.eqb_spec n name) as [->|Hne]; [tauto|]. f_equal. apply IH; tauto.
Qed.

Lemma remove_entry_app (name : string) (a b : Entries) :
  remove_entry name (a ++ b) = remove_entry name a ++ remove_entry name b.
Proof. unfold remove_entry. apply filter_app. Qed.

Lemma update_entry_app (name : string) (v : Node) (a b : Entries) :
  update_entry name v (a ++ b) = update_entry name v a ++ update_entry name v b.
Proof. unfold update_entry. apply map_app. Qed.

Lemma remove_entry_cons_same (n : string) (v : Node) (es : Entries) :
  remove_entry n ((n, v) :: es) = remove_entry n es.
Proof. unfold remove_entry; simpl. now rewrite String.eqb_refl. Qed.

Lemma update_entry_single (n : string) (v w : Node) :
  update_entry n w [(n, v)] = [(n, w)].
Proof. unfold update_entry; simpl. now rewrite String.eqb_refl. Qed.

Lemma move_step (fc n : string) (v w : Node) (pre rest inner : Entries) :
  ~ In n (map fst pre) -> ~ In n (map fst rest) ->
  ~ In fc (map fst pre) -> ~ In fc (map fst rest) -> n <> fc ->
  update_entry fc w (remove_entry n (pre ++ (n, v) :: rest ++ [(fc, Dir inner)])) =
  pre ++ rest ++ [(fc, w)].
Proof.
  intros Hn1 Hn2 Hf1 Hf2 Hne.
  rewrite remove_entry_app, remove_entry_cons_same, remove_entry_app.
  rewrite (remove_entry_absent n pre Hn1), (remove_entry_absent n rest Hn2).
  rewrite (remove_entry_absent n [(fc, Dir inner)])
    by (simpl; intros [H|[]]; congruence).
  rewrite !update_entry_app.
  rewrite (update_entry_absent fc w pre Hf1), (update_entry_absent fc w rest Hf2).
  now rewrite update_entry_single.
Qed.

(** The loop over the listing, from a state in which the entries [pre] have
    been passed over, [rest] are still to come and the class directory, listed
    last, holds [inner]. *)
Lemma move_files_spec (fc : string) (rest pre inner : Entries) :
  NoDup (map fst (pre ++ rest)) ->
  ~ In fc (map fst (pre ++ rest)) ->
  (forall n, In n (map fst rest) -> lookup n inner = None) ->
  move_files (map fst rest ++ [fc]) fc (pre ++ rest ++ [(fc, Dir inner)]) =
  Done (pre ++ filter (fun e => negb (is_file_entry e)) rest
        ++ [(fc, Dir (inner ++ filter is_file_entry rest))]).
Proof.
  revert pre inner; induction rest as [|[n v] rest IH]; intros pre inner Hnd Hfc Hin.
  - simpl. rewrite app_nil_r in *. unfold isfile.
    rewrite lookup_app, (lookup_absent fc pre Hfc). simpl.
    rewrite String.eqb_refl. reflexivity.
  - assert (Hn_pre : ~ In n (map fst pre)).
    { rewrite map_app in Hnd. apply NoDup_remove_2 in Hnd.
      intros H; apply Hnd. rewrite in_app_iff; auto. }
    assert (Hn_rest : ~ In n (map fst rest)).
    { rewrite map_app in Hnd. apply NoDup_remove_2 in Hnd.
      intros H; apply Hnd. rewrite in_app_iff; auto. }
    assert (Hn_fc : n <> fc).
    { intros ->. apply Hfc. rewrite map_app, in_app_iff; simpl; auto. }
    assert (Hnd' : NoDup (map fst ((pre ++ [(n, v)]) ++ rest)))
      by (rewrite <- app_assoc; exact Hnd).
    assert (Hfc' : ~ In fc (map fst ((pre ++ [(n, v)]) ++ rest)))
      by (rewrite <- app_assoc; exact Hfc).
    assert (Hlook : lookup n (pre ++ (n, v) :: rest ++ [(fc, Dir inner)]) = Some v).
    { rewrite lookup_app, (lookup_absent n pre Hn_pre). simpl.
      now rewrite String.eqb_refl. }
    cbn [map fst app move_files]. unfold isfile. rewrite Hlook.
    destruct v as [data|sub|].
    + (* a regular file: moved *)
      unfold move_into. rewrite Hlook.
      assert (Hfc_look : lookup fc (pre ++ (n, File data) :: rest ++ [(fc, Dir inner)])
                         = Some (Dir inner)).
      { rewrite lookup_app, (lookup_absent fc pre); [|intros H; apply Hfc;
          rewrite map_app, in_app_iff; auto].
        simpl. destruct (String.eqb_spec n fc); [contradiction|].
        rewrite lookup_app, (lookup_absent fc rest); [|intros H; apply Hfc;
          rewrite map_app, in_app_iff; simpl; auto].
        simpl. now rewrite String.eqb_refl. }
      rewrite Hfc_look, (Hin n (or_introl eq_refl)).
      replace (update_entry fc (Dir (inner ++ [(n, File data)]))
                 (remove_entry n (pre ++ (n, File data) :: rest ++ [(fc, Dir inner)])))
        with (pre ++ rest ++ [(fc, Dir (inner ++ [(n, File data)]))]).
      * rewrite IH.
        -- cbn [filter is_file_entry snd negb]. rewrite <- app_assoc. reflexivity.
        -- rewrite map_app in *. simpl in Hnd. apply NoDup_remove_1 in Hnd. exact Hnd.
        -- intros H; apply Hfc. rewrite map_app, in_app_iff in *. simpl. tauto.
        -- intros m Hm. rewrite lookup_app, (Hin m (or_intror Hm)). simpl.
           destruct (String.eqb_spec n m) as [->|]; [contradiction|reflexivity].
      * symmetry. apply move_step; auto.
        -- intros H; apply Hfc; rewrite map_app, in_app_iff; auto.
        -- intros H; apply Hfc; rewrite map_app, in_app_iff; simpl; auto.
    + (* a directory: passed over *)
      replace (pre ++ (n, Dir sub) :: rest ++ [(fc, Dir inner)])
        with ((pre ++ [(n, Dir sub)]) ++ rest ++ [(fc, Dir inner)])
        by (rewrite <- app_assoc; reflexivity).
      rewrite IH; auto.
      * cbn [filter is_file_entry snd negb]. rewrite <- !app_assoc. reflexivity.
      * intros m Hm. apply Hin. now right.
    + (* neither: passed over *)
      replace (pre ++ (n, Special) :: rest ++ [(fc, Dir inner)])
        with ((pre ++ [(n, Special)]) ++ rest ++ [(fc, Dir inner)])
        by (rewrite <- app_assoc; reflexivity).
      rewrite IH; auto.
      * cbn [filter is_file_entry snd negb]. rewrite <- !app_assoc. reflexivity.
      * intros m Hm. apply Hin. now right.
Qed.

Lemma lookup_in (name : string) (es : Entries) :
  In name (map fst es) -> exists v, In (name, v) es /\ lookup name es = Some v.
Proof.
  induction es as [|[n w] es IH]; simpl; [contradiction|].
  destruct (String.eqb_spec n name) as [->|Hne].
  - intros _. exists w; auto.
  - intros [H|H]; [contradiction|]. destruct (IH H) as (v & Hin & Hl). exists v; auto.
Qed.

(** In a directory without two entries of one name, the names for which
    [os.path.isdir] holds are the names of the directory entries. *)
Lemma subdirectories_are_dir_entries (es : Entries) :
  NoDup (map fst es) ->
  filter (isdir es) (map fst es) = map fst (filter is_dir_entry es).
Proof.
  intros Hnd.
  assert (H : forall part, incl part es ->
            filter (isdir es) (map fst part) = map fst (filter is_dir_entry part)).
  { induction part as [|[n v] part IH]; intros Hincl; [reflexivity|].
    assert (Hl : lookup n es = Some v)
      by (apply lookup_entry; [exact Hnd|apply Hincl; now left]).
    cbn [map fst filter]. unfold isdir at 1, is_dir_entry at 1. rewrite Hl. cbn [snd].
    rewrite IH by (intros e He; apply Hincl; now right).
    destruct v; reflexivity. }
  apply H, incl_refl.
Qed.

Lemma prepare_when_no_directory (es : Entries) :
  NoDup (map fst es) ->
  filter is_dir_entry es = [] ->
  ~ In "fakeclass"%string (map fst es) ->
  prepare_dataset_dir (Some (Dir es)) =
  Done (Dir (filter (fun e => negb (is_file_entry e)) es
             ++ [("fakeclass"%string, Dir (filter is_file_entry es))]),
        CreatedAndMoved "R-X-Ray/fakeclass").
Proof.
  intros Hnd Hdirs Hfc. unfold prepare_dataset_dir.
  rewrite (subdirectories_are_dir_entries es Hnd), Hdirs. cbn [map].
  unfold makedirs_exist_ok. rewrite (lookup_absent _ es Hfc).
  rewrite map_app. cbn [map fst].
  pose proof (move_files_spec "fakeclass" es [] [] Hnd Hfc (fun _ _ => eq_refl)) as H.
  cbn [app] in H. rewrite H. reflexivity.
Qed.

Lemma prepare_when_directory (es : Entries) (n : string) (names : list string) :
  NoDup (map fst es) ->
  map fst (filter is_dir_entry es) = n :: names ->
  prepare_dataset_dir (Some (Dir es)) = Done (Dir es, AlreadyFound (n :: names)).
Proof.
  intros Hnd Hdirs. unfold prepare_dataset_dir.
  now rewrite (subdirectories_are_dir_entries es Hnd), Hdirs.
Qed.

(** X11.  When the dataset directory holds no directory and no entry named
    [fakeclass], the cell creates the directory [fakeclass] and moves every
    regular file into it, name and content unchanged, in listing order;
    afterwards no regular file is left beside it, and what is neither file
    nor directory stays where it was. *)
Theorem dataset_dir_files_moved (es : Entries) :
  NoDup (map fst es) ->
  filter is_dir_entry es = [] ->
  ~ In "fakeclass"%string (map fst es) ->
  exists root' moved,
    prepare_dataset_dir (Some (Dir es)) =
      Done (Dir root', CreatedAndMoved "R-X-Ray/fakeclass") /\
    lookup "fakeclass" root' = Some (Dir moved) /\
    moved = filter is_file_entry es /\
    (forall n data, In (n, File data) es -> lookup n moved = Some (File data)) /\
    length moved = length (filter is_file_entry es) /\
    filter is_file_entry root' = [] /\
    (forall n, In (n, Special) es -> In (n, Special) root').
Proof.
  intros Hnd Hdirs Hfc.
  eexists _, _. split; [now apply prepare_when_no_directory|].
  assert (Hfc' : ~ In "fakeclass"%string
                   (map fst (filter (fun e => negb (is_file_entry e)) es))).
  { intros H. apply Hfc. apply in_map_iff in H as ((n & v) & Hn & Hin).
    apply filter_In in Hin as [Hin _]. apply in_map_iff. exists (n, v); auto. }
  repeat split.
  - rewrite lookup_app, (lookup_absent _ _ Hfc'). reflexivity.
  - intros n data Hin. apply lookup_entry.
    + clear - Hnd. induction es as [|[m w] es IH]; simpl; [constructor|].
      inversion Hnd as [|? ? Hm Hnd']; subst.
      destruct (is_file_entry (m, w)); [|auto]. simpl. constructor; [|auto].
      intros H. apply Hm. apply in_map_iff in H as (e & He & Hin).
      apply filter_In in Hin as [Hin _]. apply in_map_iff. exists e; auto.
    + apply filter_In. split; [exact Hin|reflexivity].
  - rewrite filter_app. cbn [filter is_file_entry snd]. rewrite app_nil_r.
    clear. induction es as [|e es IH]; simpl; [reflexivity|].
    destruct (is_file_entry e) eqn:He; simpl; [exact IH|]. now rewrite He.
  - intros n Hin. apply in_or_app; left. apply filter_In. split; [exact Hin|reflexivity].
Qed.

Lemma dataset_dir_files_moved_witness :
  exists root' moved,
    prepare_dataset_dir
      (Some (Dir [("a.png", File "A"); ("link", Special); ("b.png", File "B")]%string)) =
      Done (Dir root', CreatedAndMoved "R-X-Ray/fakeclass") /\
    lookup "fakeclass" root' = Some (Dir moved) /\
    moved = [("a.png", File "A"); ("b.png", File "B")]%string.
Proof.
  destruct (dataset_dir_files_moved
              [("a.png", File "A"); ("link", Special); ("b.png", File "B")]%string)
    as (root' & moved & H1 & H2 & H3 & _).
  - repeat constructor; simpl; intuition discriminate.
  - reflexivity.
  - simpl; intuition discriminate.
  - exists root', moved. auto.
Defined.

Example dataset_dir_flat :
  prepare_dataset_dir
    (Some (Dir [("a.png", File "A"); ("link", Special); ("b.png", File "B")]%string)) =
  Done (Dir [("link", Special);
             ("fakeclass", Dir [("a.png", File "A"); ("b.png", File "B")])]%string,
        CreatedAndMoved "R-X-Ray/fakeclass").
Proof. reflexivity. Qed.

Example dataset_dir_with_classes :
  prepare_dataset_dir
    (Some (Dir [("a.png", File "A"); ("normal", Dir [("n.png", File "N")])]%string)) =
  Done (Dir [("a.png", File "A"); ("normal", Dir [("n.png", File "N")])]%string,
        AlreadyFound ["normal"%string]).
Proof. reflexivity. Qed.

Example dataset_dir_name_taken :
  prepare_dataset_dir (Some (Dir [("fakeclass", File "x"); ("a.png", File "A")]%string)) =
  Raised FileExistsError.
Proof. reflexivity. Qed.

Lemma NoDup_filter_names (f : string * Node -> bool) (es : Entries) :
  NoDup (map fst es) -> NoDup (map fst (filter f es)).
Proof.
  induction es as [|e es IH]; simpl; intros Hnd; [constructor|].
  inversion Hnd as [|? ? Hm Hnd']; subst.
  destruct (f e); [|auto]. simpl. constructor; [|auto].
  intros H. apply Hm. apply in_map_iff in H as (e' & He & Hin).
  apply filter_In in Hin as [Hin _]. apply in_map_iff. exists e'; auto.
Qed.

Lemma filter_dirs_of_non_files (es : Entries) :
  filter is_dir_entry es = [] ->
  filter is_dir_entry (filter (fun e => negb (is_file_entry e)) es) = [].
Proof.
  induction es as [|e es IH]; simpl; [reflexivity|].
  destruct (is_dir_entry e) eqn:Hd; [discriminate|]. intros H.
  destruct (is_file_entry e); simpl; [auto|]. rewrite Hd. auto.
Qed.

(** The outcome of the cell on a directory: it raises exactly when no entry
    is a directory and some entry is named [fakeclass]. *)
Lemma prepare_cases (es : Entries) :
  NoDup (map fst es) ->
  (filter is_dir_entry es <> [] /\
   exists n names, map fst (filter is_dir_entry es) = n :: names /\
     prepare_dataset_dir (Some (Dir es)) = Done (Dir es, AlreadyFound (n :: names))) \/
  (filter is_dir_entry es = [] /\ In "fakeclass"%string (map fst es) /\
   prepare_dataset_dir (Some (Dir es)) = Raised FileExistsError) \/
  (filter is_dir_entry es = [] /\ ~ In "fakeclass"%string (map fst es) /\
   prepare_dataset_dir (Some (Dir es)) =
   Done (Dir (filter (fun e => negb (is_file_entry e)) es
              ++ [("fakeclass"%string, Dir (filter is_file_entry es))]),
         CreatedAndMoved "R-X-Ray/fakeclass")).
Proof.
  intros Hnd.
  destruct (filter is_dir_entry es) as [|d ds] eqn:Hdirs.
  - right.
    destruct (in_dec string_dec "fakeclass"%string (map fst es)) as [Hin|Hout].
    + left. repeat split; auto.
      destruct (lookup_in _ _ Hin) as (v & Hv & Hl).
      unfold prepare_dataset_dir.
      rewrite (subdirectories_are_dir_entries es Hnd), Hdirs. cbn [map].
      unfold makedirs_exist_ok. rewrite Hl.
      destruct v as [data|sub|]; try reflexivity.
      exfalso. assert (Hd : In ("fakeclass"%string, Dir sub) (filter is_dir_entry es))
        by (apply filter_In; split; [exact Hv|reflexivity]).
      rewrite Hdirs in Hd. contradiction.
    + right. repeat split; auto. now apply prepare_when_no_directory.
  - left. split; [discriminate|].
    exists (fst d), (map fst ds). split; [reflexivity|].
    apply prepare_when_directory; [exact Hnd|]. now rewrite Hdirs.
Qed.

(** X12.  Running the cell a second time changes nothing: after a run that
    returned, the directory holds a subdirectory, and the cell leaves a
    directory with a subdirectory exactly as it is (loose files included). *)
Theorem dataset_dir_idempotent (es : Entries) (root' : Node) (m : Message) :
  NoDup (map fst es) ->
  prepare_dataset_dir (Some (Dir es)) = Done (root', m) ->
  (filter is_dir_entry es <> [] -> root' = Dir es) /\
  exists n names,
    prepare_dataset_dir (Some root') = Done (root', AlreadyFound (n :: names)).
Proof.
  intros Hnd Hrun.
  destruct (prepare_cases es Hnd)
    as [(Hne & n & names & Hd & H)|[(He & Hin & H)|(He & Hout & H)]];
    rewrite H in Hrun; try discriminate; injection Hrun as <- <-.
  - split; [reflexivity|]. exists n, names. exact H.
  - split; [intros Hc; contradiction|].
    exists "fakeclass"%string, [].
    apply prepare_when_directory.
    + rewrite map_app. cbn [map fst].
      apply NoDup_app_remove_l with (l := []). simpl.
      pose proof (NoDup_filter_names (fun e => negb (is_file_entry e)) es Hnd) as Hf.
      clear - Hf Hout.
      assert (Hnot : ~ In "fakeclass"%string
                       (map fst (filter (fun e => negb (is_file_entry e)) es))).
      { intros H. apply Hout. apply in_map_iff in H as (e & He & Hin).
        apply filter_In in Hin as [Hin _]. apply in_map_iff. exists e; auto. }
      revert Hf Hnot. generalize (map fst (filter (fun e => negb (is_file_entry e)) es)).
      induction l as [|a l IH]; simpl; intros Hf Hnot.
      * repeat constructor. simpl; tauto.
      * inversion Hf as [|? ? Ha Hl]; subst. constructor.
        -- rewrite in_app_iff. simpl. intros [Hc|[Hc|[]]]; [contradiction|].
           apply Hnot. left. congruence.
        -- apply IH; [exact Hl|]. intros Hc; apply Hnot; now right.
    + rewrite filter_app, (filter_dirs_of_non_files es He). reflexivity.
Qed.

Lemma dataset_dir_idempotent_witness :
  exists root' m n names,
    prepare_dataset_dir
      (Some (Dir [("a.png", File "A"); ("b.png", File "B")]%string)) = Done (root', m) /\
    prepare_dataset_dir (Some root') = Done (root', AlreadyFound (n :: names)).
Proof.
  destruct (dataset_dir_idempotent [("a.png", File "A"); ("b.png", File "B")]%string
              (Dir [("fakeclass", Dir [("a.png", File "A"); ("b.png", File "B")])]%string)
              (CreatedAndMoved "R-X-Ray/fakeclass")) as (_ & n & names & H).
  - repeat constructor; simpl; intuition discriminate.
  - reflexivity.
  - eexists _, _, n, names. split; [reflexivity|exact H].
Defined.

Lemma makedirs_name_taken (es : Entries) :
  filter is_dir_entry es = [] -> In "fakeclass"%string (map fst es) ->
  makedirs_exist_ok es "fakeclass" = Raised FileExistsError.
Proof.
  intros He Hin. unfold makedirs_exist_ok.
  destruct (lookup_in _ _ Hin) as (v & Hv & Hl). rewrite Hl.
  destruct v as [data|sub|]; try reflexivity.
  exfalso. assert (Hd : In ("fakeclass"%string, Dir sub) (filter is_dir_entry es))
    by (apply filter_In; split; [exact Hv|reflexivity]).
  rewrite He in Hd. contradiction.
Qed.

(** X13.  With every directory readable and writable, the cell raises
    [FileNotFoundError] when [root_dir] does not exist and
    [NotADirectoryError] when it is a regular file (both from [os.listdir]);
    when it holds no directory but an entry named [fakeclass],
    [os.makedirs(..., exist_ok=True)] raises [FileExistsError] before any file
    is moved.  When it raises on a directory, that is the case: no
    [shutil.move] ever fails, in particular none finds its destination
    taken. *)
Theorem dataset_dir_failures (root : option Node) :
  (forall es, root = Some (Dir es) -> NoDup (map fst es)) ->
  (root = None -> prepare_dataset_dir root = Raised FileNotFoundError) /\
  (forall data, root = Some (File data) ->
     prepare_dataset_dir root = Raised NotADirectoryError) /\
  (forall es, root = Some (Dir es) ->
     filter is_dir_entry es = [] -> In "fakeclass"%string (map fst es) ->
     prepare_dataset_dir root = Raised FileExistsError /\
     makedirs_exist_ok es "fakeclass" = Raised FileExistsError) /\
  (forall es e, root = Some (Dir es) -> prepare_dataset_dir root = Raised e ->
     e = FileExistsError /\ makedirs_exist_ok es "fakeclass" = Raised FileExistsError /\
     filter is_dir_entry es = [] /\ In "fakeclass"%string (map fst es)).
Proof.
  intros Hwf. split; [|split; [|split]].
  - intros ->. reflexivity.
  - intros data ->. reflexivity.
  - intros es -> He Hin. split; [|now apply makedirs_name_taken].
    destruct (prepare_cases es (Hwf es eq_refl))
      as [(Hne & _)|[(_ & _ & H)|(_ & Hout & _)]]; try contradiction.
    exact H.
  - intros es e -> Hrun.
    destruct (prepare_cases es (Hwf es eq_refl))
      as [(Hne & n & names & Hd & H)|[(He & Hin & H)|(He & Hout & H)]];
      rewrite H in Hrun; try discriminate.
    injection Hrun as <-. split; [reflexivity|]. split; [|auto].
    now apply makedirs_name_taken.
Qed.

Lemma dataset_dir_failures_witness :
  prepare_dataset_dir (Some (Dir [("fakeclass", File "x"); ("a.png", File "A")]%string)) =
  Raised FileExistsError.
Proof.
  destruct (dataset_dir_failures
              (Some (Dir [("fakeclass", File "x"); ("a.png", File "A")]%string)))
    as (_ & _ & H & _).
  - intros es [= <-]. repeat constructor; simpl; intuition discriminate.
  - apply (H _ eq_refl); [reflexivity|simpl; auto].
Defined.

(** * The float32 values of the notebook *)

(** X18.  On every pixel value [k] of an 8-bit image, [ToTensor] followed by
    the loader's [Normalize((0.5,), (0.5,))] gives a float32 in [-1, 1]; the
    display transform [x * 0.5 + 0.5] gives back the float32 [k / 255] for
    [k = 0] and for [k >= 64], and another float32 for the pixel values 1
    to 63. *)
Theorem display_after_normalize_in_float32 (k : Z) :
  0 <= k <= 255 ->
  let v := F32.ToTensor k in
  let n := F32.Normalize (F32.py_float 5 10) (F32.py_float 5 10) v in
  SFleb (F32.of_int (-1)) n = true /\
  SFleb n F32.one = true /\
  SFeqb (F32.to_display n) v = (k =? 0) || (64 <=? k).
Proof.
  intros Hk.
  assert (Hin : In k (map Z.of_nat (seq 0 256))).
  { apply in_map_iff. exists (Z.to_nat k). split; [lia|]. apply in_seq. lia. }
  assert (Hall :
    forallb (fun k =>
               let v := F32.ToTensor k in
               let n := F32.Normalize (F32.py_float 5 10) (F32.py_float 5 10) v in
               SFleb (F32.of_int (-1)) n && SFleb n F32.one &&
               Bool.eqb (SFeqb (F32.to_display n) v) ((k =? 0) || (64 <=? k)))
            (map Z.of_nat (seq 0 256)) = true) by (vm_compute; reflexivity).
  rewrite forallb_forall in Hall. specialize (Hall k Hin). cbv zeta in *.
  apply andb_prop in Hall as [Hall H3]. apply andb_prop in Hall as [H1 H2].
  split; [exact H1|]. split; [exact H2|]. now apply Bool.eqb_prop.
Qed.

Lemma display_after_normalize_in_float32_witness :
  SFeqb (F32.to_display (F32.Normalize (F32.py_float 5 10) (F32.py_float 5 10)
                           (F32.ToTensor 1)))
        (F32.ToTensor 1) = false /\
  SFeqb (F32.to_display (F32.Normalize (F32.py_float 5 10) (F32.py_float 5 10)
                           (F32.ToTensor 255)))
        (F32.ToTensor 255) = true.
Proof.
  split.
  - apply (display_after_normalize_in_float32 1). lia.
  - apply (display_after_normalize_in_float32 255). lia.
Defined.

